(** * The Elasticsearch snapshot collector of categraf

    A shallow embedding of [inputs/elasticsearch/collector/snapshots.go]:
    the descriptor registry built by [NewSnapshots], the fetcher
    [getAndParseURL], the pipeline [fetchAndDecodeSnapshotsStats] and the two
    collector entry points [Describe] and [Collect].

    Effects (HTTP requests, body reads and closes, log lines, channel sends)
    are recorded as an event trace by a small writer monad; the remote cluster,
    the JSON decoder and the iteration order of Go maps are an environment. *)

From Stdlib Require Import ZArith Ascii String Floats.SpecFloat.
From stdpp Require Import gmap strings list fin_maps pretty.

Open Scope string_scope.
Open Scope list_scope.
Open Scope Z_scope.

(** ** Go's [path] package

    [path.Join] and [path.Clean] are used to build the request paths. They are
    modelled on path elements: the text between slashes. *)
Module path.

Definition slash : ascii := "/"%char.

(** [strings.Split(s, "/")]: the text between slashes; never empty. *)
Fixpoint split (s : string) : list string :=
  match s with
  | EmptyString => [""]
  | String c r =>
      if decide (c = slash) then "" :: split r
      else match split r with
           | [] => [String c ""]
           | x :: xs => String c x :: xs
           end
  end.

(** One element read by [Clean]; [out] is the output so far, last element
    first. An empty element is a doubled slash, [.] is dropped, [..] removes
    the element before it when there is one that is not [..] itself, is
    dropped at the root, and is kept otherwise. *)
Definition step (rooted : bool) (out : list string) (e : string) : list string :=
  if decide (e = "") then out
  else if decide (e = ".") then out
  else if decide (e = "..") then
    match out with
    | top :: below =>
        if decide (top = "..") then (if rooted then out else e :: out)
        else below
    | [] => if rooted then out else [e]
    end
  else e :: out.

Definition rooted (p : string) : bool :=
  match p with
  | String c _ => bool_decide (c = slash)
  | EmptyString => false
  end.

(** [strings.Join(elems, "/")]. *)
Fixpoint join (elems : list string) : string :=
  match elems with
  | [] => ""
  | [e] => e
  | e :: rest => e +:+ "/" +:+ join rest
  end.

Definition render (rt : bool) (out : list string) : string :=
  (if rt then "/" else "") +:+ join (rev out).

(** The elements that [Clean] keeps, last one first. *)
Definition kept (p : string) : list string :=
  foldl (step (rooted p)) [] (split p).

Definition Clean (p : string) : string :=
  if decide (p = "") then "."
  else
    let r := render (rooted p) (kept p) in
    if decide (r = "") then "." else r.

(** [path.Join]: empty elements are ignored, the rest is joined with
    slashes and cleaned; with nothing to join the result is empty. *)
Definition Join (elem : list string) : string :=
  match filter (λ e, e ≠ "") elem with
  | [] => ""
  | es => Clean (join es)
  end.

(** A name that is one path element: not empty, not [.] or [..], and
    without a slash. *)
Definition plain (e : string) : Prop :=
  e ≠ "" ∧ e ≠ "." ∧ e ≠ ".." ∧ slash ∉ String.list_ascii_of_string e.

End path.

(** ** Numbers

    Go's [int] and [int64] are modelled by [Z]; [/] on them is [Z.quot]
    (rounding toward zero). [float64(n)] is the binary64 number nearest to the
    integer [n], ties to even. *)
Definition float64 : Type := spec_float.

Definition float64_of_int (n : Z) : float64 := binary_normalize 53 1024 n 0 false.

(** The constant [0] of type [float64]. *)
Definition float64_zero : float64 := S754_zero false.

(** [len] of a slice, as an [int]. *)
Definition len {A} (l : list A) : Z := Z.of_nat (length l).

(** ** The part of the Prometheus client library the collector uses *)
Module prometheus.

Inductive ValueType := CounterValue | GaugeValue | UntypedValue.

(** A descriptor: fully qualified name, help text, names of the labels. *)
Record Desc := mkDesc {
  fqName : string;
  help : string;
  variableLabels : list string
}.

Definition BuildFQName (namespace subsystem name : string) : string :=
  if decide (name = "") then ""
  else
    (if decide (namespace = "") then "" else namespace +:+ "_") +:+
    (if decide (subsystem = "") then "" else subsystem +:+ "_") +:+ name.

(** [NewDesc fqName help variableLabels nil]: no constant labels here. *)
Definition NewDesc (fqName help : string) (variableLabels : list string) : Desc :=
  mkDesc fqName help variableLabels.

(** A constant metric, as made by [MustNewConstMetric]. The library panics
    when the label values are not as many as the label names of the
    descriptor; [samples_fit_their_descriptors] below shows that the samples
    of the collector have as many. *)
Record Metric := mkMetric {
  desc : Desc;
  valType : ValueType;
  value : float64;
  labelValues : list string
}.

Definition MustNewConstMetric
    (d : Desc) (t : ValueType) (v : float64) (labels : list string) : Metric :=
  mkMetric d t v labels.

#[global] Instance ValueType_eq_dec : EqDecision ValueType.
Proof. solve_decision. Defined.

End prometheus.

(** ** Response types

    The types [SnapshotStatDataResponse], [SnapshotStatsResponse] and
    [SnapshotRepositoriesResponse] are declared in another file of the
    package. They are given here with the fields that [snapshots.go] reads. *)

(** Modelled from the spec: the shard-count summary of a snapshot record
    (field [Shards], declared outside [snapshots.go]); integer counts. *)
Record ShardCounts := mkShards {
  Total : Z;
  Failed : Z;
  Successful : Z
}.

(** Modelled from the spec: the record of one snapshot (declared outside
    [snapshots.go]): included index names, state, version, start and end
    time in milliseconds since the epoch, failure list, shard counts. *)
Record SnapshotStatDataResponse := mkSnapshot {
  Indices : list string;
  State : string;
  Version : string;
  StartTimeInMillis : Z;
  EndTimeInMillis : Z;
  Failures : list string;
  Shards : ShardCounts
}.

(** Modelled from the spec: the statistics of a repository (declared outside
    [snapshots.go]), an ordered sequence of snapshot records. The field
    [Snapshots] of the Go struct is given its JSON name, since the collector
    itself is the record [Snapshots] below. *)
Record SnapshotStatsResponse := mkStats {
  snapshots : list SnapshotStatDataResponse
}.

(** Modelled from the spec: the metadata of a repository in the catalog
    (declared outside [snapshots.go]); the collector reads only the keys of
    the catalog, a map from repository name to metadata. *)
Record RepositoryMetadata := mkRepository {
  repositoryType : string
}.

Abbreviation SnapshotRepositoriesResponse := (gmap string RepositoryMetadata).

(** ** URLs, responses and the HTTP client *)

(** The fields of [url.URL] the collector reads or writes. *)
Record URL := mkURL {
  Scheme : string;
  Hostname : string;
  Port : string;
  Path : string
}.

#[global] Instance URL_eq_dec : EqDecision URL.
Proof. solve_decision. Defined.

Definition withPath (u : URL) (p : string) : URL :=
  mkURL (Scheme u) (Hostname u) (Port u) p.

(** Go's [error], by its message. *)
Abbreviation error := string (only parsing).

(** An HTTP response: the status code, what [io.ReadAll] on its body gives,
    and what [Body.Close] returns. *)
Record Response := mkResponse {
  StatusCode : Z;
  Body : error + string;
  CloseErr : option error
}.

(** [http.Client]: what [Get] answers for a URL during one cycle. A request
    is identified by the URL value, of which [u.String()] is the text. *)
Record Client := mkClient {
  Get : URL → error + Response
}.

Definition StatusOK : Z := 200.

(** ** Effects *)

Inductive Event :=
  | EvGet (u : URL)                       (* s.client.Get(u.String()) *)
  | EvReadAll (u : URL)                   (* io.ReadAll(res.Body) *)
  | EvClose (u : URL)                     (* res.Body.Close() *)
  | EvLog (line : string)                 (* log.Println(...) *)
  | EvDesc (d : prometheus.Desc)          (* ch <- metric.Desc *)
  | EvMetric (m : prometheus.Metric).     (* ch <- prometheus.Metric *)

(** A computation returns a value and the events it performed, in order. *)
Definition IO (A : Type) : Type := A * list Event.

#[global] Instance IO_ret : MRet IO := λ A x, (x, []).
#[global] Instance IO_bind : MBind IO :=
  λ A B f m, let r := f m.1 in (r.1, m.2 ++ r.2).

Definition emit (e : Event) : IO unit := (tt, [e]).

(** The events of a computation and its result. *)
Definition trace {A} (m : IO A) : list Event := m.2.
Definition result {A} (m : IO A) : A := m.1.

(** A [for ... range] loop over a slice whose body only has effects. *)
Fixpoint forEach {A} (l : list A) (body : A → IO unit) : IO unit :=
  match l with
  | [] => mret tt
  | x :: rest => body x;; forEach rest body
  end.

(** A [for ... range] loop whose body updates a local variable. *)
Fixpoint forFold {A S} (l : list A) (body : S → A → IO S) (s : S) : IO S :=
  match l with
  | [] => mret s
  | x :: rest => s' ← body s x; forFold rest body s'
  end.

(** [defer]: the deferred call runs when the function returns, after the
    returned value is fixed. *)
Definition defer {A} (deferred : IO unit) (body : IO A) : IO A :=
  r ← body; deferred;; mret r.

(** [log.Println]: the operands separated by spaces (the logger's time stamp
    and the final newline are left out). *)
Definition Println (operands : list string) : IO unit :=
  emit (EvLog (String.concat " " operands)).

(** ** What the Go runtime and [encoding/json] decide

    [json.Unmarshal] into the two destination types, and the order in which a
    [range] over a map visits it: some order of the entries of the map, each
    entry once. The collector ranges once over each map of a cycle. *)
Record Runtime := mkRuntime {
  unmarshalRepositories : string → error + SnapshotRepositoriesResponse;
  unmarshalStats : string → error + SnapshotStatsResponse;
  range : ∀ V, gmap string V → list (string * V);
  range_perm : ∀ V (m : gmap string V), range V m ≡ₚ map_to_list m
}.

Arguments range _ {V} _.

(** ** The descriptor registry *)

Record snapshotMetric := mkSnapshotMetric {
  smType : prometheus.ValueType;
  smDesc : prometheus.Desc;
  smValue : SnapshotStatDataResponse → float64;
  smLabels : string → SnapshotStatDataResponse → list string
}.

Record repositoryMetric := mkRepositoryMetric {
  rmType : prometheus.ValueType;
  rmDesc : prometheus.Desc;
  rmValue : SnapshotStatsResponse → float64;
  rmLabels : string → list string
}.

Definition defaultSnapshotLabels : list string := ["repository"; "state"; "version"].

Definition defaultSnapshotLabelValues
    (repositoryName : string) (snapshotStats : SnapshotStatDataResponse) : list string :=
  [repositoryName; State snapshotStats; Version snapshotStats].

Definition defaultSnapshotRepositoryLabels : list string := ["repository"].

Definition defaultSnapshotRepositoryLabelValues (repositoryName : string) : list string :=
  [repositoryName].

Record Snapshots := mkSnapshots {
  client : Client;
  url : URL;
  snapshotMetrics : list snapshotMetric;
  repositoryMetrics : list repositoryMetric
}.

(** The loop of the third repository metric:
    [for i := len(Snapshots) - 1; i >= 0; i--], with [n] standing for [i + 1]. *)
Fixpoint latestScan (snapshots : list SnapshotStatDataResponse) (n : nat) : float64 :=
  match n with
  | O => float64_zero
  | S i =>
      match snapshots !! i with
      | Some snap =>
          if bool_decide (State snap = "SUCCESS") || bool_decide (State snap = "PARTIAL")
          then float64_of_int (StartTimeInMillis snap ÷ 1000)
          else latestScan snapshots i
      | None => float64_zero (* i < len(Snapshots): not reached *)
      end
  end.

Section collector.

(** The constant [namespace] of the package is declared in another file; it
    is a parameter of the registry. *)
Context (namespace : string).

Definition snapshotDesc (name help : string) (labels : list string) : prometheus.Desc :=
  prometheus.NewDesc (prometheus.BuildFQName namespace "snapshot_stats" name) help labels.

Definition NewSnapshots (client : Client) (url : URL) : Snapshots :=
  {| client := client;
     url := url;
     snapshotMetrics := [
       {| smType := prometheus.GaugeValue;
          smDesc := snapshotDesc "snapshot_number_of_indices"
                      "Number of indices in the last snapshot" defaultSnapshotLabels;
          smValue := λ snapshotStats, float64_of_int (len (Indices snapshotStats));
          smLabels := defaultSnapshotLabelValues |};
       {| smType := prometheus.GaugeValue;
          smDesc := snapshotDesc "snapshot_start_time_timestamp"
                      "Last snapshot start timestamp" defaultSnapshotLabels;
          smValue := λ snapshotStats,
            float64_of_int (StartTimeInMillis snapshotStats ÷ 1000);
          smLabels := defaultSnapshotLabelValues |};
       {| smType := prometheus.GaugeValue;
          smDesc := snapshotDesc "snapshot_end_time_timestamp"
                      "Last snapshot end timestamp" defaultSnapshotLabels;
          smValue := λ snapshotStats,
            float64_of_int (EndTimeInMillis snapshotStats ÷ 1000);
          smLabels := defaultSnapshotLabelValues |};
       {| smType := prometheus.GaugeValue;
          smDesc := snapshotDesc "snapshot_number_of_failures"
                      "Last snapshot number of failures" defaultSnapshotLabels;
          smValue := λ snapshotStats, float64_of_int (len (Failures snapshotStats));
          smLabels := defaultSnapshotLabelValues |};
       {| smType := prometheus.GaugeValue;
          smDesc := snapshotDesc "snapshot_total_shards"
                      "Last snapshot total shards" defaultSnapshotLabels;
          smValue := λ snapshotStats, float64_of_int (Total (Shards snapshotStats));
          smLabels := defaultSnapshotLabelValues |};
       {| smType := prometheus.GaugeValue;
          smDesc := snapshotDesc "snapshot_failed_shards"
                      "Last snapshot failed shards" defaultSnapshotLabels;
          smValue := λ snapshotStats, float64_of_int (Failed (Shards snapshotStats));
          smLabels := defaultSnapshotLabelValues |};
       {| smType := prometheus.GaugeValue;
          smDesc := snapshotDesc "snapshot_successful_shards"
                      "Last snapshot successful shards" defaultSnapshotLabels;
          smValue := λ snapshotStats, float64_of_int (Successful (Shards snapshotStats));
          smLabels := defaultSnapshotLabelValues |}
     ];
     repositoryMetrics := [
       {| rmType := prometheus.GaugeValue;
          rmDesc := snapshotDesc "number_of_snapshots"
                      "Number of snapshots in a repository" defaultSnapshotRepositoryLabels;
          rmValue := λ snapshotsStats, float64_of_int (len (snapshots snapshotsStats));
          rmLabels := defaultSnapshotRepositoryLabelValues |};
       {| rmType := prometheus.GaugeValue;
          rmDesc := snapshotDesc "oldest_snapshot_timestamp"
                      "Timestamp of the oldest snapshot" defaultSnapshotRepositoryLabels;
          rmValue := λ snapshotsStats,
            if decide (len (snapshots snapshotsStats) = 0) then float64_zero
            else match snapshots snapshotsStats !! 0%nat with
                 | Some first => float64_of_int (StartTimeInMillis first ÷ 1000)
                 | None => float64_zero (* 0 < len(Snapshots): not reached *)
                 end;
          rmLabels := defaultSnapshotRepositoryLabelValues |};
       {| rmType := prometheus.GaugeValue;
          rmDesc := snapshotDesc "latest_snapshot_timestamp_seconds"
                      "Timestamp of the latest SUCCESS or PARTIAL snapshot"
                      defaultSnapshotRepositoryLabels;
          rmValue := λ snapshotsStats,
            latestScan (snapshots snapshotsStats) (length (snapshots snapshotsStats));
          rmLabels := defaultSnapshotRepositoryLabelValues |}
     ] |}.

End collector.

(** ** The collector's operations *)

(** [Describe]: sends the descriptors on the channel. *)
Definition Describe (s : Snapshots) : IO unit :=
  forEach (snapshotMetrics s) (λ metric, emit (EvDesc (smDesc metric)));;
  forEach (repositoryMetrics s) (λ metric, emit (EvDesc (rmDesc metric))).

(** The deferred function of [getAndParseURL]: closes the body and logs when
    closing fails. It assigns the local [err], not the returned value. *)
Definition closeBody (u : URL) (res : Response) : IO unit :=
  emit (EvClose u);;
  match CloseErr res with
  | Some err => Println ["failed to close http.Client, err: "; err]
  | None => mret tt
  end.

(** [getAndParseURL]; [unmarshal] is [json.Unmarshal] into the type of
    [data], so that [inr v] stands for a [nil] error with [data] set to [v]. *)
Definition getAndParseURL {T} (s : Snapshots)
    (unmarshal : string → error + T) (u : URL) : IO (error + T) :=
  emit (EvGet u);;
  match Get (client s) u with
  | inl err =>
      mret (inl ("failed to get from " +:+ Scheme u +:+ "://" +:+ Hostname u +:+
                 ":" +:+ Port u +:+ Path u +:+ ": " +:+ err))
  | inr res =>
      defer (closeBody u res)
        (if decide (StatusCode res ≠ StatusOK) then
           mret (inl ("HTTP Request failed with code " +:+ pretty (StatusCode res)))
         else
           emit (EvReadAll u);;
           match Body res with
           | inl err => mret (inl err)
           | inr bts => mret (unmarshal bts)
           end)
  end.

Section pipeline.

Context (rt : Runtime).

(** The URL of the catalog and of the detail of one repository. *)
Definition catalogURL (s : Snapshots) : URL :=
  withPath (url s) (path.Join [Path (url s); "/_snapshot"]).

Definition detailURL (s : Snapshots) (repository : string) : URL :=
  withPath (url s) (path.Join [Path (url s); "/_snapshot"; repository; "/_all"]).

(** The body of the loop over the catalog. *)
Definition fetchRepository (s : Snapshots)
    (mssr : gmap string SnapshotStatsResponse) (repository : string)
    : IO (gmap string SnapshotStatsResponse) :=
  r ← getAndParseURL s (unmarshalStats rt) (detailURL s repository);
  match r with
  | inl _ => mret mssr (* continue *)
  | inr ssr => mret (<[repository := ssr]> mssr)
  end.

Definition fetchAndDecodeSnapshotsStats (s : Snapshots)
    : IO (error + gmap string SnapshotStatsResponse) :=
  r ← getAndParseURL s (unmarshalRepositories rt) (catalogURL s);
  match r with
  | inl err => mret (inl err)
  | inr srr =>
      mssr ← forFold (range rt srr).*1 (fetchRepository s) ∅;
      mret (inr mssr)
  end.

(** The body of the loop of [Collect] over the fetched repositories. *)
Definition collectRepository (s : Snapshots)
    (repositoryName : string) (snapshotStats : SnapshotStatsResponse) : IO unit :=
  forEach (repositoryMetrics s) (λ metric,
    emit (EvMetric (prometheus.MustNewConstMetric
      (rmDesc metric) (rmType metric)
      (rmValue metric snapshotStats) (rmLabels metric repositoryName))));;
  if decide (len (snapshots snapshotStats) = 0) then mret tt (* continue *)
  else
    match snapshots snapshotStats !! Z.to_nat (len (snapshots snapshotStats) - 1) with
    | Some lastSnapshot =>
        forEach (snapshotMetrics s) (λ metric,
          emit (EvMetric (prometheus.MustNewConstMetric
            (smDesc metric) (smType metric)
            (smValue metric lastSnapshot)
            (smLabels metric repositoryName lastSnapshot))))
    | None => mret tt (* len(Snapshots) - 1 is in range: not reached *)
    end.

Definition Collect (s : Snapshots) : IO unit :=
  snapshotsStatsResp ← fetchAndDecodeSnapshotsStats s;
  match snapshotsStatsResp with
  | inl err => Println ["failed to fetch and decode snapshot stats, err: "; err]
  | inr snapshotsStatsResp =>
      forEach (range rt snapshotsStatsResp) (λ '(repositoryName, snapshotStats),
        collectRepository s repositoryName snapshotStats)
  end.

End pipeline.

(** ** Readings of a trace *)

Definition requests (tr : list Event) : list URL :=
  omap (λ e, match e with EvGet u => Some u | _ => None end) tr.

Definition closes (tr : list Event) : list URL :=
  omap (λ e, match e with EvClose u => Some u | _ => None end) tr.

Definition logged (tr : list Event) : list string :=
  omap (λ e, match e with EvLog l => Some l | _ => None end) tr.

Definition descriptors (tr : list Event) : list prometheus.Desc :=
  omap (λ e, match e with EvDesc d => Some d | _ => None end) tr.

Definition samples (tr : list Event) : list prometheus.Metric :=
  omap (λ e, match e with EvMetric m => Some m | _ => None end) tr.

(** ** Reading the registry *)

(** A record counts for the third repository metric. *)
Definition successOrPartial (snap : SnapshotStatDataResponse) : Prop :=
  State snap = "SUCCESS" ∨ State snap = "PARTIAL".

#[global] Instance successOrPartial_dec snap : Decision (successOrPartial snap).
Proof. unfold successOrPartial. apply _. Defined.

(** The value of the [i]-th repository metric on the statistics of a
    repository, and of the [i]-th snapshot metric on a record. *)
Definition repositoryValue (s : Snapshots) (i : nat) (stats : SnapshotStatsResponse)
    : option float64 :=
  (λ metric, rmValue metric stats) <$> repositoryMetrics s !! i.

Definition snapshotValue (s : Snapshots) (i : nat) (snap : SnapshotStatDataResponse)
    : option float64 :=
  (λ metric, smValue metric snap) <$> snapshotMetrics s !! i.

Definition repositoryName (s : Snapshots) (i : nat) : option string :=
  (λ metric, prometheus.fqName (rmDesc metric)) <$> repositoryMetrics s !! i.

Definition snapshotName (s : Snapshots) (i : nat) : option string :=
  (λ metric, prometheus.fqName (smDesc metric)) <$> snapshotMetrics s !! i.

(** The start time of a record in seconds. *)
Definition startSeconds (snap : SnapshotStatDataResponse) : float64 :=
  float64_of_int (StartTimeInMillis snap ÷ 1000).

(** The third repository metric in the words of the specification: the
    first record, from the last one backward, that is a success or partial. *)
Definition latestSuccessOrPartial (snaps : list SnapshotStatDataResponse) : float64 :=
  match find (λ snap, bool_decide (successOrPartial snap)) (rev snaps) with
  | Some snap => startSeconds snap
  | None => float64_zero
  end.

(** ** A small cluster to run the collector on *)
Module example.

Definition snap (state : string) (start : Z) : SnapshotStatDataResponse :=
  mkSnapshot ["logs"; "metrics"] state "8.11.0" start (start + 5000) []
    (mkShards 4 1 3).

Definition threeSnapshots : SnapshotStatsResponse :=
  mkStats [snap "FAILED" 100000; snap "SUCCESS" 200000; snap "FAILED" 300000].

Definition allFailed : SnapshotStatsResponse :=
  mkStats [snap "FAILED" 100000; snap "FAILED" 300000].

(** A decoder that knows a few bodies by name. *)
Definition decode {T} (table : list (string * T)) (bts : string) : error + T :=
  match list_find (λ entry, entry.1 = bts) table with
  | Some (_, (_, v)) => inr v
  | None => inl "invalid character 'x' looking for beginning of value"
  end.

Definition catalog (names : list string) : SnapshotRepositoriesResponse :=
  list_to_map ((λ name, (name, mkRepository "fs")) <$> names).

Definition runtime : Runtime :=
  {| unmarshalRepositories := decode [
       ("catalog R1 R2", catalog ["R1"; "R2"]);
       ("catalog dotdot", catalog [".."]) ];
     unmarshalStats := decode [
       ("three", threeSnapshots);
       ("failed", allFailed);
       ("empty", mkStats []) ];
     range := λ V m, map_to_list m;
     range_perm := λ V m, reflexivity (map_to_list m) |}.

(** A client that answers the listed paths and refuses the others. *)
Definition serve (table : list (string * Response)) : Client :=
  {| Get := λ u,
       match list_find (λ entry, entry.1 = Path u) table with
       | Some (_, (_, res)) => inr res
       | None => inl "dial tcp 127.0.0.1:9200: connect: connection refused"
       end |}.

Definition ok (body : string) : Response := mkResponse 200 (inr body) None.

Definition base : URL := mkURL "http" "localhost" "9200" "".

(** The cluster is down. *)
Definition down : Snapshots := NewSnapshots "elasticsearch" (serve []) base.

(** Repository R1 answers 500, repository R2 has three snapshots. *)
Definition oneBroken : Snapshots :=
  NewSnapshots "elasticsearch"
    (serve [ ("/_snapshot", ok "catalog R1 R2");
             ("/_snapshot/R1/_all", mkResponse 500 (inr "") None);
             ("/_snapshot/R2/_all", ok "three") ])
    base.

(** Both repositories answer. *)
Definition healthy : Snapshots :=
  NewSnapshots "elasticsearch"
    (serve [ ("/_snapshot", ok "catalog R1 R2");
             ("/_snapshot/R1/_all", ok "empty");
             ("/_snapshot/R2/_all", ok "three") ])
    base.

(** A catalog with one repository, named [..], under the base path [/es]. *)
Definition dotdot : Snapshots :=
  NewSnapshots "elasticsearch"
    (serve [ ("/es/_snapshot", ok "catalog dotdot");
             ("/es/_all", ok "empty") ])
    (mkURL "http" "localhost" "9200" "/es").

End example.


(** ** Calling an operation several times *)

(** [n] calls of the same operation, one after the other. *)
Fixpoint calls (n : nat) (m : IO unit) : IO unit :=
  match n with
  | O => mret tt
  | S k => m;; calls k m
  end.

(** The descriptors of a collector, in the order of [Describe]. *)
Definition advertised (s : Snapshots) : list prometheus.Desc :=
  (smDesc <$> snapshotMetrics s) ++ (rmDesc <$> repositoryMetrics s).

(** The events that touch the network. *)
Definition network (e : Event) : bool :=
  match e with
  | EvGet _ | EvReadAll _ | EvClose _ => true
  | _ => false
  end.


(** ** The two kinds of fetch and the samples of one repository *)

(** The fetch of the catalog, and the detail fetch of one repository, as
    [fetchAndDecodeSnapshotsStats] performs them. *)
Definition catalogFetch (rt : Runtime) (s : Snapshots)
    : IO (error + SnapshotRepositoriesResponse) :=
  getAndParseURL s (unmarshalRepositories rt) (catalogURL s).

Definition detailFetch (rt : Runtime) (s : Snapshots) (repository : string)
    : IO (error + SnapshotStatsResponse) :=
  getAndParseURL s (unmarshalStats rt) (detailURL s repository).

(** What one turn of the loop over the catalog leaves in [mssr]. *)
Definition keep (rt : Runtime) (s : Snapshots)
    (mssr : gmap string SnapshotStatsResponse) (repository : string)
    : gmap string SnapshotStatsResponse :=
  match result (detailFetch rt s repository) with
  | inl _ => mssr
  | inr ssr => <[repository := ssr]> mssr
  end.

(** One sample per repository-level descriptor, on all the statistics. *)
Definition repositorySamples (s : Snapshots)
    (name : string) (stats : SnapshotStatsResponse) : list prometheus.Metric :=
  (λ metric,
     prometheus.mkMetric (rmDesc metric) (rmType metric)
       (rmValue metric stats) (rmLabels metric name)) <$> repositoryMetrics s.

(** One sample per snapshot-level descriptor, on one record. *)
Definition recordSamples (s : Snapshots)
    (name : string) (snap : SnapshotStatDataResponse) : list prometheus.Metric :=
  (λ metric,
     prometheus.mkMetric (smDesc metric) (smType metric)
       (smValue metric snap) (smLabels metric name snap)) <$> snapshotMetrics s.

(** The snapshot-level samples of a repository: those of its last record,
    when it has one. *)
Definition snapshotSamples (s : Snapshots)
    (name : string) (stats : SnapshotStatsResponse) : list prometheus.Metric :=
  match last (snapshots stats) with
  | Some lastSnapshot => recordSamples s name lastSnapshot
  | None => []
  end.

(** The samples whose first label value is the repository [name]. *)
Definition samplesOf (name : string) (ms : list prometheus.Metric)
    : list prometheus.Metric :=
  filter (λ m, head (prometheus.labelValues m) = Some name) ms.

(** The line logged when closing a body fails. *)
Definition closeFailureLine (err : error) : string :=
  "failed to close http.Client, err:  " +:+ err.

(** The line logged by [Collect] when the pipeline fails. *)
Definition fetchFailureLine (err : error) : string :=
  "failed to fetch and decode snapshot stats, err:  " +:+ err.


(** The repositories whose detail fetch succeeded, with their statistics:
    what [fetchAndDecodeSnapshotsStats] returns for the catalog [srr]. *)
Definition fetched (rt : Runtime) (s : Snapshots) (srr : SnapshotRepositoriesResponse)
    : gmap string SnapshotStatsResponse :=
  foldl (keep rt s) ∅ (range rt srr).*1.


(** The lines that a request to [u] leaves in the log: one line when the
    body of the response fails to close. *)
Definition closeLines (c : Client) (u : URL) : list string :=
  match Get c u with
  | inr res => match CloseErr res with
               | Some err => [closeFailureLine err]
               | None => []
               end
  | inl _ => []
  end.

(** The path [{base}/_snapshot/{name}/_all], put together as text. *)
Definition templatePath (s : Snapshots) (name : string) : string :=
  Path (url s) +:+ "/_snapshot/" +:+ name +:+ "/_all".


(** The four ways out of [getAndParseURL] once a response is there. *)
Inductive Exit {T} (res : Response) (unmarshal : string → error + T) : error + T → Prop :=
  | ExitStatus :
      StatusCode res ≠ StatusOK →
      Exit res unmarshal
        (inl ("HTTP Request failed with code " +:+ pretty (StatusCode res)))
  | ExitRead err :
      StatusCode res = StatusOK → Body res = inl err →
      Exit res unmarshal (inl err)
  | ExitDecode bts err :
      StatusCode res = StatusOK → Body res = inr bts → unmarshal bts = inl err →
      Exit res unmarshal (inl err)
  | ExitSuccess bts v :
      StatusCode res = StatusOK → Body res = inr bts → unmarshal bts = inr v →
      Exit res unmarshal (inr v).

(** ** The Docker helpers *)
Module docker.

(** [filters.Args] of the Docker client library: for each key, the set of
    its values (a map from key to a map from value to [true]). *)
Abbreviation Args := (gmap string (gset string)).

(** [filters.NewArgs()]. *)
Definition NewArgs : Args := ∅.

(** [args.Add(key, value)]: the value joins the values of the key, or
    becomes the only one when the key is new. *)
Definition Add (key value : string) (args : Args) : Args :=
  match args !! key with
  | Some values => <[key := {[value]} ∪ values]> args
  | None => <[key := {[value]}]> args
  end.

(** [volume.ListOptions], of which only [Filters] is set. *)
Record ListOptions := mkListOptions {
  Filters : Args
}.

(** The loop [for i := 0; i < len(args); i += 2] of [buildDockerFilter]:
    it reads the arguments two by two, [args[i]] the key and [args[i+1]] the
    value. It runs on an even number of arguments only. *)
Fixpoint addPairs (args : list string) (filter : Args) : Args :=
  match args with
  | key :: value :: rest => addPairs rest (Add key value filter)
  | _ => filter
  end.

(** [buildDockerFilter]: the options and the error ([None] for [nil]). *)
Definition buildDockerFilter (args : list string) : ListOptions * option string :=
  let filter := NewArgs in
  if decide (len args `rem` 2 ≠ 0) then
    (mkListOptions filter, Some "an even number of arguments is required")
  else
    (mkListOptions (addPairs args filter), None).

(** [GetInspectCacheKey]: [%s] prints the string and [%t] the boolean. *)
Definition GetInspectCacheKey (ID : string) (withSize : bool) : string :=
  "dockerutil.containers." +:+ ID +:+ ".withsize." +:+
  (if withSize then "true" else "false").

(** The values of a key in a filter; none when the key is absent. *)
Definition valuesOf (filter : Args) (key : string) : gset string :=
  default ∅ (filter !! key).

End docker.

(** ** More readings of a cycle *)

(** Whether the client answers a request with a response. *)
Definition answered (c : Client) (u : URL) : bool :=
  match Get c u with
  | inr _ => true
  | inl _ => false
  end.

(** A sample has as many label values as its descriptor has label names. *)
Definition fits (m : prometheus.Metric) : Prop :=
  length (prometheus.labelValues m) =
  length (prometheus.variableLabels (prometheus.desc m)).

(** The fetched repositories that have at least one snapshot. *)
Definition withSnapshots (mssr : gmap string SnapshotStatsResponse)
    : list (string * SnapshotStatsResponse) :=
  filter (λ entry, snapshots entry.2 ≠ []) (map_to_list mssr).

Module example2.

(** The runtime of [example], but ranging over maps in the opposite order. *)
Definition backward : Runtime :=
  {| unmarshalRepositories := unmarshalRepositories example.runtime;
     unmarshalStats := unmarshalStats example.runtime;
     range := λ V m, reverse (map_to_list m);
     range_perm := λ V m, reverse_Permutation (map_to_list m) |}.

(** Repository R1 answers 500 and its body fails to close. *)
Definition closeFails : Snapshots :=
  NewSnapshots "elasticsearch"
    (example.serve [
       ("/_snapshot", example.ok "catalog R1 R2");
       ("/_snapshot/R1/_all", mkResponse 500 (inr "") (Some "broken pipe"));
       ("/_snapshot/R2/_all", example.ok "three") ])
    example.base.

End example2.


(** Whether an event is a log line, and a trace without its log lines. *)
Definition isLog (e : Event) : bool :=
  match e with
  | EvLog _ => true
  | _ => false
  end.

Definition withoutLog (tr : list Event) : list Event :=
  filter (λ e, isLog e = false) tr.


(** The bodies read during a trace. *)
Definition reads (tr : list Event) : list URL :=
  omap (λ e, match e with EvReadAll u => Some u | _ => None end) tr.


Module example3.

(** The catalog answers, the details of both repositories are refused. *)
Definition detailsDown : Snapshots :=
  NewSnapshots "elasticsearch"
    (example.serve [ ("/_snapshot", example.ok "catalog R1 R2") ])
    example.base.

End example3.


(* ================================================================= *)
(** * Verification *)

(** ** Properties of the writer monad and of the loops *)

Lemma trace_bind {A B} (m : IO A) (f : A → IO B) :
  trace (m ≫= f) = trace m ++ trace (f (result m)).
Proof. reflexivity. Qed.

Lemma result_bind {A B} (m : IO A) (f : A → IO B) :
  result (m ≫= f) = result (f (result m)).
Proof. reflexivity. Qed.

Lemma trace_forEach {A} (l : list A) (body : A → IO unit) :
  trace (forEach l body) = flat_map (λ x, trace (body x)) l.
Proof.
  induction l as [|x l IH]; [reflexivity|].
  simpl forEach. rewrite trace_bind, IH. reflexivity.
Qed.

Lemma trace_forEach_emit {A} (l : list A) (ev : A → Event) :
  trace (forEach l (λ x, emit (ev x))) = ev <$> l.
Proof.
  induction l as [|x l IH]; [reflexivity|].
  simpl forEach. rewrite trace_bind, IH. reflexivity.
Qed.

Lemma requests_app tr1 tr2 : requests (tr1 ++ tr2) = requests tr1 ++ requests tr2.
Proof. apply omap_app. Qed.

Lemma closes_app tr1 tr2 : closes (tr1 ++ tr2) = closes tr1 ++ closes tr2.
Proof. apply omap_app. Qed.

Lemma logged_app tr1 tr2 : logged (tr1 ++ tr2) = logged tr1 ++ logged tr2.
Proof. apply omap_app. Qed.

Lemma samples_app tr1 tr2 : samples (tr1 ++ tr2) = samples tr1 ++ samples tr2.
Proof. apply omap_app. Qed.

Lemma descriptors_app tr1 tr2 :
  descriptors (tr1 ++ tr2) = descriptors tr1 ++ descriptors tr2.
Proof. apply omap_app. Qed.

Lemma samples_metrics (ms : list prometheus.Metric) : samples (EvMetric <$> ms) = ms.
Proof. induction ms as [|m ms IH]; [reflexivity|]. cbn. f_equal. exact IH. Qed.

Lemma descriptors_descs (ds : list prometheus.Desc) : descriptors (EvDesc <$> ds) = ds.
Proof. induction ds as [|d ds IH]; [reflexivity|]. cbn. f_equal. exact IH. Qed.

(** ** The repository-level descriptors *)

Lemma latestScan_take snaps n :
  (n ≤ length snaps)%nat →
  latestScan snaps n = latestSuccessOrPartial (take n snaps).
Proof.
  induction n as [|i IH]; intros Hn.
  - reflexivity.
  - destruct (lookup_lt_is_Some_2 snaps i ltac:(lia)) as [snap Hsnap].
    rewrite (take_S_r _ _ _ Hsnap). unfold latestSuccessOrPartial.
    rewrite rev_app_distr. simpl. rewrite Hsnap.
    replace (bool_decide (successOrPartial snap))
      with (bool_decide (State snap = "SUCCESS") || bool_decide (State snap = "PARTIAL")).
    + destruct (_ || _); [reflexivity|]. rewrite IH by lia. reflexivity.
    + symmetry. apply bool_decide_or.
Qed.

Lemma latestScan_spec snaps :
  latestScan snaps (length snaps) = latestSuccessOrPartial snaps.
Proof. rewrite latestScan_take by lia. by rewrite firstn_all. Qed.

Lemma latestSuccessOrPartial_found before snap after :
  successOrPartial snap →
  Forall (λ later, ¬ successOrPartial later) after →
  latestSuccessOrPartial (before ++ snap :: after) = startSeconds snap.
Proof.
  intros Hsnap Hafter. unfold latestSuccessOrPartial.
  rewrite rev_app_distr. simpl. rewrite <- app_assoc. simpl.
  apply Forall_rev in Hafter. revert Hafter.
  generalize (rev after). intros l Hl.
  induction Hl as [|later l Hlater _ IH]; simpl.
  - by rewrite bool_decide_eq_true_2.
  - by rewrite bool_decide_eq_false_2.
Qed.

Lemma latestSuccessOrPartial_none snaps :
  Forall (λ snap, ¬ successOrPartial snap) snaps →
  latestSuccessOrPartial snaps = float64_zero.
Proof.
  intros Hall. unfold latestSuccessOrPartial.
  apply Forall_rev in Hall. revert Hall. generalize (rev snaps). intros l Hl.
  induction Hl as [|snap l Hsnap _ IH]; simpl; [reflexivity|].
  by rewrite bool_decide_eq_false_2.
Qed.

(** C3. The value of the latest-success-or-partial descriptor (the third
    repository metric) is found by going through the snapshots from the last
    one backward: it is the start time in seconds of the first record whose
    state is SUCCESS or PARTIAL, and 0 when no record is (the empty sequence
    and the sequence of FAILED records included). *)
Theorem latest_snapshot_timestamp_scans_backward
    (namespace : string) (c : Client) (base : URL) (stats : SnapshotStatsResponse) :
  let s := NewSnapshots namespace c base in
  repositoryName s 2 =
    Some (prometheus.BuildFQName namespace "snapshot_stats"
            "latest_snapshot_timestamp_seconds") ∧
  repositoryValue s 2 stats = Some (latestSuccessOrPartial (snapshots stats)) ∧
  (∀ before snap after,
     snapshots stats = before ++ snap :: after →
     successOrPartial snap →
     Forall (λ later, ¬ successOrPartial later) after →
     repositoryValue s 2 stats = Some (float64_of_int (StartTimeInMillis snap ÷ 1000))) ∧
  (Forall (λ snap, ¬ successOrPartial snap) (snapshots stats) →
     repositoryValue s 2 stats = Some float64_zero).
Proof.
  intros s.
  assert (Hval : repositoryValue s 2 stats = Some (latestSuccessOrPartial (snapshots stats))).
  { cbn. f_equal. apply latestScan_spec. }
  split_and!.
  - reflexivity.
  - exact Hval.
  - intros before snap after Heq Hsnap Hafter.
    rewrite Hval, Heq. f_equal. by apply latestSuccessOrPartial_found.
  - intros Hall. rewrite Hval. f_equal. by apply latestSuccessOrPartial_none.
Qed.

Lemma latest_snapshot_timestamp_scans_backward_witness :
  repositoryValue example.healthy 2 example.threeSnapshots = Some (float64_of_int 200) ∧
  repositoryValue example.healthy 2 example.allFailed = Some float64_zero ∧
  repositoryValue example.healthy 2 (mkStats []) = Some float64_zero.
Proof.
  pose proof (latest_snapshot_timestamp_scans_backward "elasticsearch"
                (client example.healthy) example.base) as H.
  split_and!.
  - destruct (H example.threeSnapshots) as (_ & _ & Hfound & _).
    apply (Hfound [example.snap "FAILED" 100000] (example.snap "SUCCESS" 200000)
                  [example.snap "FAILED" 300000]).
    + reflexivity.
    + left. reflexivity.
    + repeat constructor. intros [?|?]; discriminate.
  - destruct (H example.allFailed) as (_ & _ & _ & Hnone).
    apply Hnone. repeat constructor; intros [?|?]; discriminate.
  - destruct (H (mkStats [])) as (_ & _ & _ & Hnone).
    apply Hnone. constructor.
Defined.

(** C6. The value of the snapshot-count descriptor (the first repository
    metric) is the length of the snapshot sequence, and the value of the
    oldest-snapshot descriptor (the second one) is the start time in seconds
    of the first element of the sequence, or 0 when the sequence is empty. *)
Theorem number_of_snapshots_and_oldest_timestamp
    (namespace : string) (c : Client) (base : URL) (stats : SnapshotStatsResponse) :
  let s := NewSnapshots namespace c base in
  repositoryName s 0 =
    Some (prometheus.BuildFQName namespace "snapshot_stats" "number_of_snapshots") ∧
  repositoryValue s 0 stats =
    Some (float64_of_int (Z.of_nat (length (snapshots stats)))) ∧
  repositoryName s 1 =
    Some (prometheus.BuildFQName namespace "snapshot_stats" "oldest_snapshot_timestamp") ∧
  repositoryValue s 1 stats =
    Some (match snapshots stats with
          | [] => float64_zero
          | first :: _ => float64_of_int (StartTimeInMillis first ÷ 1000)
          end).
Proof.
  intros s. split_and!; try reflexivity.
  cbn. f_equal. destruct (snapshots stats) as [|first rest]; [reflexivity|].
  rewrite decide_False; [reflexivity|]. unfold len. simpl length. lia.
Qed.

(** C7. The values of the start-timestamp and end-timestamp descriptors (the
    second and third snapshot metrics) are the millisecond timestamps divided
    by 1000 as integers, rounding toward zero, and only then converted to a
    float: the quotient [q] satisfies [1000 * q + r = millis] with [r] of
    the sign of [millis] and [|r| < 1000], and a start time of 100 ms
    gives 0. *)
Theorem timestamps_are_truncated_seconds
    (namespace : string) (c : Client) (base : URL) (snap : SnapshotStatDataResponse) :
  let s := NewSnapshots namespace c base in
  snapshotName s 1 =
    Some (prometheus.BuildFQName namespace "snapshot_stats"
            "snapshot_start_time_timestamp") ∧
  snapshotValue s 1 snap = Some (float64_of_int (StartTimeInMillis snap ÷ 1000)) ∧
  snapshotName s 2 =
    Some (prometheus.BuildFQName namespace "snapshot_stats"
            "snapshot_end_time_timestamp") ∧
  snapshotValue s 2 snap = Some (float64_of_int (EndTimeInMillis snap ÷ 1000)) ∧
  (∀ millis : Z,
     let q := millis ÷ 1000 in
     let r := millis - 1000 * q in
     Z.abs r < 1000 ∧ 0 ≤ r * millis) ∧
  snapshotValue s 1 (example.snap "SUCCESS" 100) = Some float64_zero ∧
  snapshotValue s 1 (example.snap "SUCCESS" 1999) = Some (float64_of_int 1) ∧
  snapshotValue s 1 (example.snap "SUCCESS" (-100)) = Some float64_zero.
Proof.
  intros s. split_and!; try reflexivity.
  intros millis q r. subst q r.
  pose proof (Z.quot_rem' millis 1000) as Hqr.
  pose proof (Z.rem_bound_abs millis 1000 ltac:(lia)) as Habs.
  pose proof (Z.rem_sign_mul millis 1000 ltac:(lia)) as Hsign.
  replace (millis - 1000 * (millis ÷ 1000)) with (Z.rem millis 1000) by lia.
  split; [lia|exact Hsign].
Qed.

(** ** The descriptor advertisement *)

Lemma trace_Describe (s : Snapshots) : trace (Describe s) = EvDesc <$> advertised s.
Proof.
  unfold Describe, advertised. rewrite trace_bind, !trace_forEach_emit.
  by rewrite fmap_app, <- !list_fmap_compose.
Qed.

(** C10. Every call of [Describe] sends exactly 10 descriptors and nothing
    else, in a fixed order: the 7 snapshot-level descriptors (index count,
    start and end timestamp, failure count, total, failed and successful
    shards), then the 3 repository-level descriptors (snapshot count, oldest
    timestamp, latest success-or-partial timestamp). *)
Theorem Describe_sends_ten_descriptors_in_order
    (namespace : string) (c : Client) (base : URL) :
  let s := NewSnapshots namespace c base in
  let name := prometheus.BuildFQName namespace "snapshot_stats" in
  trace (Describe s) = EvDesc <$> advertised s ∧
  length (trace (Describe s)) = 10%nat ∧
  prometheus.fqName <$> advertised s =
    [ name "snapshot_number_of_indices";
      name "snapshot_start_time_timestamp";
      name "snapshot_end_time_timestamp";
      name "snapshot_number_of_failures";
      name "snapshot_total_shards";
      name "snapshot_failed_shards";
      name "snapshot_successful_shards";
      name "number_of_snapshots";
      name "oldest_snapshot_timestamp";
      name "latest_snapshot_timestamp_seconds" ] ∧
  prometheus.variableLabels <$> advertised s =
    replicate 7 ["repository"; "state"; "version"] ++ replicate 3 ["repository"] ∧
  advertised s = (smDesc <$> snapshotMetrics s) ++ (rmDesc <$> repositoryMetrics s) ∧
  length (snapshotMetrics s) = 7%nat ∧
  length (repositoryMetrics s) = 3%nat.
Proof.
  intros s name. split_and!; reflexivity.
Qed.

Lemma trace_calls_Describe (s : Snapshots) (n : nat) :
  trace (calls n (Describe s)) = concat (replicate n (EvDesc <$> advertised s)).
Proof.
  induction n as [|k IH]; [reflexivity|].
  cbn [calls]. rewrite trace_bind, trace_Describe, IH. reflexivity.
Qed.

Lemma requests_descs (ds : list prometheus.Desc) : requests (EvDesc <$> ds) = [].
Proof. induction ds as [|d ds IH]; [reflexivity|exact IH]. Qed.

Lemma network_descs (ds : list prometheus.Desc) : filter network (EvDesc <$> ds) = [].
Proof. induction ds as [|d ds IH]; [reflexivity|exact IH]. Qed.

(** C8. However many times [Describe] is called, every call sends the same
    descriptors, and no call touches the network: the trace of [n] calls is
    [n] times the descriptors of the collector and holds no request, read or
    close. *)
Theorem Describe_is_idempotent_and_offline (s : Snapshots) (n : nat) :
  trace (calls n (Describe s)) = concat (replicate n (EvDesc <$> advertised s)) ∧
  descriptors (trace (calls n (Describe s))) = concat (replicate n (advertised s)) ∧
  requests (trace (calls n (Describe s))) = [] ∧
  filter network (trace (calls n (Describe s))) = [].
Proof.
  rewrite trace_calls_Describe. split_and!; [reflexivity|..];
    induction n as [|k IH]; try reflexivity; simpl.
  - by rewrite descriptors_app, descriptors_descs, IH.
  - by rewrite requests_app, requests_descs, IH.
  - by rewrite filter_app, network_descs, IH.
Qed.

(** ** The fetcher *)

Lemma getAndParseURL_no_response {T} (s : Snapshots)
    (unmarshal : string → error + T) (u : URL) (err : error) :
  Get (client s) u = inl err →
  trace (getAndParseURL s unmarshal u) = [EvGet u] ∧
  ∃ msg, result (getAndParseURL s unmarshal u) = inl msg.
Proof. intros Hget. unfold getAndParseURL. rewrite Hget. split; [reflexivity|eauto]. Qed.

Lemma getAndParseURL_response {T} (s : Snapshots)
    (unmarshal : string → error + T) (u : URL) (res : Response) :
  Get (client s) u = inr res →
  trace (getAndParseURL s unmarshal u) =
    EvGet u :: (if decide (StatusCode res ≠ StatusOK) then [] else [EvReadAll u]) ++
    EvClose u ::
    match CloseErr res with
    | Some err => [EvLog ("failed to close http.Client, err:  " +:+ err)]
    | None => []
    end ∧
  Exit res unmarshal (result (getAndParseURL s unmarshal u)).
Proof.
  intros Hget. unfold getAndParseURL. rewrite Hget.
  destruct (decide (StatusCode res ≠ StatusOK)) as [Hstatus|Hstatus].
  - split; [cbn; by destruct (CloseErr res)|]. by constructor.
  - apply dec_stable in Hstatus.
    destruct (Body res) as [err|bts] eqn:Hbody.
    + split; [cbn; by destruct (CloseErr res)|]. by apply ExitRead.
    + split; [cbn; by destruct (CloseErr res)|].
      cbn. destruct (unmarshal bts) as [err|v] eqn:Hdecode.
      * by apply (ExitDecode _ _ bts).
      * by apply (ExitSuccess _ _ bts).
Qed.

(** C9. Whenever [getAndParseURL] obtains a response, it closes the body of
    that response exactly once before it returns, whichever way it returns:
    on a status other than 200, on a failed read of the body, on a failed
    decoding, and on success. The close is the last thing it does, but for
    the log line of a close that fails. *)
Theorem body_is_closed_on_every_exit_path {T} (s : Snapshots)
    (unmarshal : string → error + T) (u : URL) (res : Response) :
  Get (client s) u = inr res →
  let call := getAndParseURL s unmarshal u in
  closes (trace call) = [u] ∧
  Exit res unmarshal (result call) ∧
  ∃ before after,
    trace call = EvGet u :: before ++ EvClose u :: after ∧
    closes before = [] ∧
    after = match CloseErr res with
            | Some err => [EvLog ("failed to close http.Client, err:  " +:+ err)]
            | None => []
            end.
Proof.
  intros Hget call.
  destruct (getAndParseURL_response s unmarshal u res Hget) as [Htrace Hexit].
  fold call in Htrace, Hexit. split_and!.
  - rewrite Htrace. by destruct (decide _), (CloseErr res).
  - exact Hexit.
  - eexists _, _. split_and!; [exact Htrace| |reflexivity]. by destruct (decide _).
Qed.

Lemma body_is_closed_on_every_exit_path_witness :
  let u := detailURL example.oneBroken "R1" in
  Get (client example.oneBroken) u = inr (mkResponse 500 (inr "") None) ∧
  closes (trace (getAndParseURL example.oneBroken
                   (unmarshalStats example.runtime) u)) = [u].
Proof.
  split; [reflexivity|].
  apply (body_is_closed_on_every_exit_path example.oneBroken
           (unmarshalStats example.runtime) _ (mkResponse 500 (inr "") None)).
  reflexivity.
Defined.

(** ** The pipeline *)

Section pipeline_facts.

Context (rt : Runtime) (s : Snapshots).

Lemma requests_getAndParseURL {T} (unmarshal : string → error + T) (u : URL) :
  requests (trace (getAndParseURL s unmarshal u)) = [u].
Proof.
  destruct (Get (client s) u) as [err|res] eqn:Hget.
  - by destruct (getAndParseURL_no_response s unmarshal u err Hget) as [-> _].
  - destruct (getAndParseURL_response s unmarshal u res Hget) as [-> _].
    by destruct (decide _), (CloseErr res).
Qed.

Lemma samples_getAndParseURL {T} (unmarshal : string → error + T) (u : URL) :
  samples (trace (getAndParseURL s unmarshal u)) = [].
Proof.
  destruct (Get (client s) u) as [err|res] eqn:Hget.
  - by destruct (getAndParseURL_no_response s unmarshal u err Hget) as [-> _].
  - destruct (getAndParseURL_response s unmarshal u res Hget) as [-> _].
    by destruct (decide _), (CloseErr res).
Qed.

Lemma logged_getAndParseURL {T} (unmarshal : string → error + T) (u : URL) :
  logged (trace (getAndParseURL s unmarshal u)) =
    match Get (client s) u with
    | inr res => match CloseErr res with
                 | Some err => [closeFailureLine err]
                 | None => []
                 end
    | inl _ => []
    end.
Proof.
  destruct (Get (client s) u) as [err|res] eqn:Hget.
  - by destruct (getAndParseURL_no_response s unmarshal u err Hget) as [-> _].
  - destruct (getAndParseURL_response s unmarshal u res Hget) as [-> _].
    by destruct (decide _), (CloseErr res).
Qed.

Lemma trace_fetchRepository mssr repository :
  trace (fetchRepository rt s mssr repository) = trace (detailFetch rt s repository).
Proof.
  unfold fetchRepository. rewrite trace_bind. fold (detailFetch rt s repository).
  destruct (result _); apply app_nil_r.
Qed.

Lemma result_fetchRepository mssr repository :
  result (fetchRepository rt s mssr repository) = keep rt s mssr repository.
Proof.
  unfold fetchRepository, keep, detailFetch. rewrite result_bind.
  by destruct (result (getAndParseURL _ _ _)).
Qed.

Lemma trace_fetch_loop names mssr :
  trace (forFold names (fetchRepository rt s) mssr) =
    flat_map (λ name, trace (detailFetch rt s name)) names.
Proof.
  revert mssr. induction names as [|name names IH]; intros mssr; [reflexivity|].
  cbn [forFold flat_map]. by rewrite trace_bind, trace_fetchRepository, IH.
Qed.

Lemma result_fetch_loop names mssr :
  result (forFold names (fetchRepository rt s) mssr) = foldl (keep rt s) mssr names.
Proof.
  revert mssr. induction names as [|name names IH]; intros mssr; [reflexivity|].
  cbn [forFold foldl]. by rewrite result_bind, IH, result_fetchRepository.
Qed.

Lemma lookup_keep_loop names mssr name :
  NoDup names →
  foldl (keep rt s) mssr names !! name =
    if decide (name ∈ names) then
      match result (detailFetch rt s name) with
      | inr ssr => Some ssr
      | inl _ => mssr !! name
      end
    else mssr !! name.
Proof.
  intros Hnodup. revert mssr.
  induction Hnodup as [|first names Hfirst Hnodup IH]; intros mssr.
  - reflexivity.
  - cbn [foldl]. rewrite IH. unfold keep.
    destruct (decide (name = first)) as [->|Hne].
    + rewrite (decide_False (P := first ∈ names)) by done.
      rewrite (decide_True (P := first ∈ first :: names)) by left.
      destruct (result _); [done|]. by rewrite lookup_insert_eq.
    + assert (Hkeep :
        match result (detailFetch rt s first) with
        | inl _ => mssr
        | inr ssr => <[first := ssr]> mssr
        end !! name = mssr !! name).
      { destruct (result (detailFetch rt s first)); [done|].
        by rewrite lookup_insert_ne. }
      rewrite Hkeep.
      destruct (decide (name ∈ names)) as [Hin|Hnotin].
      * by rewrite (decide_True (P := name ∈ first :: names)) by by right.
      * by rewrite (decide_False (P := name ∈ first :: names))
          by (rewrite elem_of_cons; intros [?|?]; done).
Qed.

End pipeline_facts.

Section cycle_facts.

Context (rt : Runtime) (s : Snapshots).

Lemma range_lookup {V} (m : gmap string V) (k : string) (v : V) :
  (k, v) ∈ range rt m ↔ m !! k = Some v.
Proof. rewrite (range_perm rt V m). apply elem_of_map_to_list. Qed.

Lemma range_NoDup {V} (m : gmap string V) : NoDup (range rt m).*1.
Proof. rewrite (range_perm rt V m). apply NoDup_fst_map_to_list. Qed.

Lemma range_keys {V} (m : gmap string V) (k : string) :
  k ∈ (range rt m).*1 ↔ is_Some (m !! k).
Proof.
  rewrite list_elem_of_fmap. split.
  - intros [[k' v] [-> Hin]]. apply range_lookup in Hin. by exists v.
  - intros [v Hv]. exists (k, v). split; [done|]. by apply range_lookup.
Qed.

Lemma range_length {V} (m : gmap string V) : length (range rt m) = size m.
Proof. rewrite (range_perm rt V m). apply length_map_to_list. Qed.

Lemma fetch_failure (err : error) :
  result (catalogFetch rt s) = inl err →
  result (fetchAndDecodeSnapshotsStats rt s) = inl err ∧
  trace (fetchAndDecodeSnapshotsStats rt s) = trace (catalogFetch rt s).
Proof.
  intros Hcat. unfold fetchAndDecodeSnapshotsStats.
  fold (catalogFetch rt s). rewrite result_bind, trace_bind, Hcat.
  split; [reflexivity|apply app_nil_r].
Qed.

Lemma fetch_success (srr : SnapshotRepositoriesResponse) :
  result (catalogFetch rt s) = inr srr →
  result (fetchAndDecodeSnapshotsStats rt s) = inr (fetched rt s srr) ∧
  trace (fetchAndDecodeSnapshotsStats rt s) =
    trace (catalogFetch rt s) ++
    flat_map (λ name, trace (detailFetch rt s name)) (range rt srr).*1.
Proof.
  intros Hcat. unfold fetchAndDecodeSnapshotsStats.
  fold (catalogFetch rt s). rewrite result_bind, trace_bind, Hcat.
  rewrite result_bind, trace_bind, trace_fetch_loop, result_fetch_loop.
  split; [reflexivity|]. cbn [mret IO_ret trace snd]. by rewrite app_nil_r.
Qed.

Lemma fetched_lookup (srr : SnapshotRepositoriesResponse)
    (name : string) (stats : SnapshotStatsResponse) :
  fetched rt s srr !! name = Some stats ↔
  is_Some (srr !! name) ∧ result (detailFetch rt s name) = inr stats.
Proof.
  unfold fetched. rewrite lookup_keep_loop by apply range_NoDup.
  rewrite <- range_keys. destruct (decide _) as [Hin|Hnotin].
  - destruct (result _) as [err|ssr]; rewrite ?lookup_empty.
    + split; [discriminate|]. intros [_ ?]. discriminate.
    + split; [intros [= ->]; done|]. by intros [_ [= ->]].
  - rewrite lookup_empty. split; [discriminate|]. by intros [? _].
Qed.

Lemma trace_collectRepository (name : string) (stats : SnapshotStatsResponse) :
  trace (collectRepository s name stats) =
    EvMetric <$> (repositorySamples s name stats ++ snapshotSamples s name stats).
Proof.
  unfold collectRepository, repositorySamples, snapshotSamples, recordSamples.
  rewrite trace_bind, trace_forEach_emit, fmap_app, <- list_fmap_compose.
  f_equal. unfold len. rewrite last_lookup.
  destruct (snapshots stats) as [|first rest]; [reflexivity|].
  rewrite decide_False by (simpl length; lia).
  replace (Z.to_nat (Z.of_nat (length (first :: rest)) - 1))
    with (pred (length (first :: rest))) by (simpl length; lia).
  destruct (_ !! _); [|reflexivity].
  by rewrite trace_forEach_emit, <- list_fmap_compose.
Qed.

Lemma trace_emitting (mssr : gmap string SnapshotStatsResponse) :
  trace (forEach (range rt mssr)
           (λ '(name, stats), collectRepository s name stats)) =
    EvMetric <$> flat_map (λ '(name, stats),
      repositorySamples s name stats ++ snapshotSamples s name stats) (range rt mssr).
Proof.
  rewrite trace_forEach. induction (range rt mssr) as [|[name stats] l IH].
  - reflexivity.
  - cbn [flat_map]. by rewrite IH, trace_collectRepository, !fmap_app.
Qed.

End cycle_facts.

(** ** One scrape cycle *)

Section cycle.

Context (rt : Runtime) (s : Snapshots).

Lemma trace_Collect_failure (err : error) :
  result (catalogFetch rt s) = inl err →
  trace (Collect rt s) = trace (catalogFetch rt s) ++ [EvLog (fetchFailureLine err)].
Proof.
  intros Hcat. destruct (fetch_failure rt s err Hcat) as [Hres Htr].
  unfold Collect. by rewrite trace_bind, Hres, Htr.
Qed.

Lemma trace_Collect_success (srr : SnapshotRepositoriesResponse) :
  result (catalogFetch rt s) = inr srr →
  trace (Collect rt s) =
    (trace (catalogFetch rt s) ++
     flat_map (λ name, trace (detailFetch rt s name)) (range rt srr).*1) ++
    (EvMetric <$> flat_map (λ '(name, stats),
       repositorySamples s name stats ++ snapshotSamples s name stats)
       (range rt (fetched rt s srr))).
Proof.
  intros Hcat. destruct (fetch_success rt s srr Hcat) as [Hres Htr].
  unfold Collect. by rewrite trace_bind, Hres, Htr, trace_emitting.
Qed.

Lemma requests_detail_loop (names : list string) :
  requests (flat_map (λ name, trace (detailFetch rt s name)) names) =
    detailURL s <$> names.
Proof.
  induction names as [|name names IH]; [reflexivity|].
  cbn [flat_map]. rewrite requests_app, IH. unfold detailFetch.
  by rewrite requests_getAndParseURL.
Qed.

Lemma samples_detail_loop (names : list string) :
  samples (flat_map (λ name, trace (detailFetch rt s name)) names) = [].
Proof.
  induction names as [|name names IH]; [reflexivity|].
  cbn [flat_map]. rewrite samples_app, IH. unfold detailFetch.
  by rewrite samples_getAndParseURL.
Qed.

Lemma requests_metrics (ms : list prometheus.Metric) : requests (EvMetric <$> ms) = [].
Proof. induction ms as [|m ms IH]; [reflexivity|exact IH]. Qed.

Lemma logged_metrics (ms : list prometheus.Metric) : logged (EvMetric <$> ms) = [].
Proof. induction ms as [|m ms IH]; [reflexivity|exact IH]. Qed.

(** The samples of a successful cycle are those of the fetched
    repositories, in the order of the range over them. *)
Lemma samples_Collect_success (srr : SnapshotRepositoriesResponse) :
  result (catalogFetch rt s) = inr srr →
  samples (trace (Collect rt s)) =
    flat_map (λ '(name, stats),
      repositorySamples s name stats ++ snapshotSamples s name stats)
      (range rt (fetched rt s srr)).
Proof.
  intros Hcat. rewrite (trace_Collect_success srr Hcat).
  rewrite !samples_app, samples_detail_loop, samples_metrics.
  unfold catalogFetch. by rewrite samples_getAndParseURL.
Qed.

(** The requests of a successful cycle: the catalog, then one request per
    name of the catalog. *)
Lemma requests_Collect_success (srr : SnapshotRepositoriesResponse) :
  result (catalogFetch rt s) = inr srr →
  requests (trace (Collect rt s)) = catalogURL s :: (detailURL s <$> (range rt srr).*1).
Proof.
  intros Hcat. rewrite (trace_Collect_success srr Hcat).
  rewrite !requests_app, requests_detail_loop, requests_metrics, app_nil_r.
  unfold catalogFetch. by rewrite requests_getAndParseURL.
Qed.

End cycle.

(** C2. When the fetch of the catalog fails, [Collect] sends no sample and
    makes no detail fetch (the request of the catalog is the only one), and
    it reports the failure by a log line, after which it returns. *)
Theorem catalog_failure_aborts_the_cycle (rt : Runtime) (s : Snapshots) (err : error) :
  result (catalogFetch rt s) = inl err →
  samples (trace (Collect rt s)) = [] ∧
  requests (trace (Collect rt s)) = [catalogURL s] ∧
  trace (Collect rt s) = trace (catalogFetch rt s) ++ [EvLog (fetchFailureLine err)] ∧
  last (logged (trace (Collect rt s))) = Some (fetchFailureLine err) ∧
  result (Collect rt s) = ().
Proof.
  intros Hcat. rewrite (trace_Collect_failure rt s err Hcat).
  rewrite samples_app, requests_app, logged_app. unfold catalogFetch.
  rewrite samples_getAndParseURL, requests_getAndParseURL. split_and!; try done.
  - apply last_snoc.
  - by destruct (result (Collect rt s)).
Qed.

Lemma catalog_failure_aborts_the_cycle_witness :
  let err := "failed to get from http://localhost:9200/_snapshot: " +:+
             "dial tcp 127.0.0.1:9200: connect: connection refused" in
  result (catalogFetch example.runtime example.down) = inl err ∧
  samples (trace (Collect example.runtime example.down)) = [] ∧
  requests (trace (Collect example.runtime example.down)) = [catalogURL example.down] ∧
  logged (trace (Collect example.runtime example.down)) = [fetchFailureLine err].
Proof.
  intros err.
  destruct (catalog_failure_aborts_the_cycle example.runtime example.down err)
    as (Hsamples & Hrequests & _); [reflexivity|].
  split_and!; [reflexivity|exact Hsamples|exact Hrequests|reflexivity].
Defined.

(** ** Request paths *)

Section path_facts.

Import path.

Lemma split_nonempty (p : string) : split p ≠ [].
Proof.
  destruct p as [|c p]; [done|]. simpl.
  destruct (decide _); [done|]. by destruct (split p).
Qed.

Lemma split_slash (p q : string) :
  split (p +:+ String slash q) = split p ++ split q.
Proof.
  induction p as [|c p IH]; [reflexivity|].
  change (String c p +:+ String slash q) with (String c (p +:+ String slash q)).
  cbn [split]. rewrite IH.
  destruct (decide _); [reflexivity|].
  pose proof (split_nonempty p). by destruct (split p).
Qed.

Lemma split_plain (e : string) :
  slash ∉ String.list_ascii_of_string e → split e = [e].
Proof.
  induction e as [|c e IH]; [reflexivity|].
  cbn [String.list_ascii_of_string split]. intros Hnot.
  apply not_elem_of_cons in Hnot as [Hc He].
  rewrite decide_False by done. by rewrite IH.
Qed.

Lemma step_plain (r : bool) (out : list string) (e : string) :
  e ≠ "" → e ≠ "." → e ≠ ".." → step r out e = e :: out.
Proof. intros. unfold step. by rewrite !decide_False. Qed.

Lemma rooted_append (p q : string) : p ≠ "" → rooted (p +:+ q) = rooted p.
Proof. by destruct p. Qed.

(** One more plain element at the end of a path is kept as it is. *)
Lemma kept_snoc (p e : string) :
  p ≠ "" → plain e → kept (p +:+ String slash e) = e :: kept p.
Proof.
  intros Hp (He1 & He2 & He3 & He4). unfold kept.
  rewrite rooted_append, split_slash, foldl_app, (split_plain e) by done.
  by apply step_plain.
Qed.

(** A slash at the end of a path changes nothing. *)
Lemma kept_slash (p : string) : p ≠ "" → kept (p +:+ "/") = kept p.
Proof.
  intros Hp. unfold kept.
  change (p +:+ "/") with (p +:+ String slash "").
  by rewrite rooted_append, split_slash, foldl_app.
Qed.

Lemma append_assoc (p q r : string) : p +:+ q +:+ r = (p +:+ q) +:+ r.
Proof.
  induction p as [|c p IH]; [reflexivity|].
  change (String c (p +:+ q +:+ r) = String c ((p +:+ q) +:+ r)). by rewrite IH.
Qed.

Lemma join_snoc (l : list string) (x e : string) :
  join (l ++ [x; e]) = join (l ++ [x]) +:+ "/" +:+ e.
Proof.
  induction l as [|y l IH]; [reflexivity|].
  cbn [app]. change (join (y :: ?r)) with
    (match r with [] => y | _ => y +:+ "/" +:+ join r end).
  destruct l as [|z l]; cbn [app] in *; by rewrite IH, !append_assoc.
Qed.

Lemma render_push (r : bool) (out : list string) (x e : string) :
  render r (e :: x :: out) = render r (x :: out) +:+ "/" +:+ e.
Proof.
  unfold render. cbn [rev]. rewrite <- app_assoc. cbn [app].
  rewrite join_snoc. by rewrite !append_assoc.
Qed.

Lemma append_empty (p q : string) : p +:+ q = "" → q = "".
Proof. destruct p; [done|discriminate]. Qed.

Lemma render_top_nonempty (r : bool) (out : list string) (e : string) :
  e ≠ "" → render r (e :: out) ≠ "".
Proof.
  intros He Hrender. unfold render in Hrender. cbn [rev] in Hrender.
  apply append_empty in Hrender. destruct (rev out) as [|y l].
  - done.
  - cbn [app] in Hrender.
    change (join (y :: ?r)) with
      (match r with [] => y | _ => y +:+ "/" +:+ join r end) in Hrender.
    destruct (l ++ [e]) eqn:Hl; [by destruct l|].
    apply append_empty in Hrender. discriminate.
Qed.

Lemma Clean_kept (p e : string) (out : list string) :
  p ≠ "" → kept p = e :: out → e ≠ "" → Clean p = render (rooted p) (e :: out).
Proof.
  intros Hp Hkept He. unfold Clean. rewrite decide_False by done.
  cbn zeta. rewrite Hkept. rewrite decide_False; [done|].
  by apply render_top_nonempty.
Qed.

Lemma append_nonempty (p q : string) : p ≠ "" → p +:+ q ≠ "".
Proof. by destruct p. Qed.

Lemma Clean_snoc (p e x : string) (out : list string) :
  p ≠ "" → kept p = x :: out → x ≠ "" → plain e →
  Clean (p +:+ String slash e) = Clean p +:+ "/" +:+ e.
Proof.
  intros Hp Hkept Hx He.
  rewrite (Clean_kept (p +:+ String slash e) e (x :: out)).
  - rewrite (Clean_kept p x out) by done.
    by rewrite rooted_append, render_push.
  - by apply append_nonempty.
  - by rewrite kept_snoc, Hkept.
  - by destruct He.
Qed.

Lemma Clean_slash (p : string) : p ≠ "" → Clean (p +:+ "/") = Clean p.
Proof.
  intros Hp. unfold Clean.
  rewrite (decide_False (P := p +:+ "/" = "")) by by apply append_nonempty.
  rewrite (decide_False (P := p = "")) by done.
  by rewrite kept_slash, rooted_append.
Qed.

Lemma plain_literal (e : string) :
  bool_decide (e ≠ "" ∧ e ≠ "." ∧ e ≠ ".." ∧
               slash ∉ String.list_ascii_of_string e) = true →
  plain e.
Proof. apply bool_decide_eq_true_1. Qed.

(** Two more elements after a path that ends in a kept element: a plain
    name, then [/_all]. *)
Lemma Clean_two_more (p x name : string) (out : list string) :
  p ≠ "" → kept p = x :: out → x ≠ "" → plain name →
  Clean (p +:+ "/" +:+ name +:+ "/" +:+ "/_all") =
    Clean p +:+ "/" +:+ name +:+ "/_all".
Proof.
  intros Hp Hkept Hx Hname.
  assert (Hname' : name ≠ "") by by destruct Hname.
  replace (p +:+ "/" +:+ name +:+ "/" +:+ "/_all")
    with (((p +:+ String slash name) +:+ "/") +:+ String slash "_all").
  2:{ rewrite <- !append_assoc. reflexivity. }
  assert (Hp1 : p +:+ String slash name ≠ "") by by apply append_nonempty.
  rewrite (Clean_snoc _ "_all" name (x :: out)).
  - rewrite Clean_slash by done.
    rewrite (Clean_snoc p name x out) by done.
    rewrite <- !append_assoc. reflexivity.
  - by apply append_nonempty.
  - by rewrite kept_slash, kept_snoc, Hkept.
  - done.
  - by apply plain_literal.
Qed.

(** The path of a detail request is the path of the catalog request
    followed by the name and by [_all], when the name is one plain path
    element. *)
Lemma Join_detail (base name : string) :
  plain name →
  Join [base; "/_snapshot"; name; "/_all"] =
    Join [base; "/_snapshot"] +:+ "/" +:+ name +:+ "/_all".
Proof.
  intros Hname. assert (Hname' : name ≠ "") by by destruct Hname.
  unfold Join. destruct (decide (base = "")) as [->|Hbase].
  - rewrite (filter_cons_False _ "") by (by intros ?).
    rewrite !filter_cons_True by done. cbn [filter list_filter].
    change (join ["/_snapshot"; name; "/_all"])
      with ("/_snapshot" +:+ "/" +:+ name +:+ "/" +:+ "/_all").
    by apply (Clean_two_more "/_snapshot" "_snapshot" name []).
  - rewrite !filter_cons_True by done. cbn [filter list_filter].
    change (join [base; "/_snapshot"; name; "/_all"])
      with (base +:+ "/" +:+ "/_snapshot" +:+ "/" +:+ name +:+ "/" +:+ "/_all").
    change (join [base; "/_snapshot"]) with (base +:+ "/" +:+ "/_snapshot").
    rewrite (append_assoc base "/" (_ +:+ _)).
    rewrite (append_assoc (base +:+ "/") "/_snapshot").
    rewrite (append_assoc base "/" "/_snapshot").
    apply (Clean_two_more _ "_snapshot" name (kept (base +:+ "/"))); try done.
    + by apply append_nonempty, append_nonempty.
    + change ((base +:+ "/") +:+ "/_snapshot")
        with ((base +:+ "/") +:+ String slash "_snapshot").
      apply kept_snoc; [by apply append_nonempty|]. by apply plain_literal.
Qed.

End path_facts.

(** C5, as the code has it. When the catalog is fetched and decoded, one
    detail fetch is made for each of its N names and for nothing else, after
    the request of the catalog. The path of the request for a name is
    [path.Join] of the base path, [/_snapshot], the name and [/_all]: the
    path of the catalog request followed by [/name/_all] when the name is
    one plain path element (not empty, not [.] or [..], without a slash). *)
Theorem detail_fetches_follow_the_catalog
    (rt : Runtime) (s : Snapshots) (srr : SnapshotRepositoriesResponse) :
  result (catalogFetch rt s) = inr srr →
  ∃ names : list string,
    NoDup names ∧
    (∀ name, name ∈ names ↔ is_Some (srr !! name)) ∧
    length names = size srr ∧
    requests (trace (Collect rt s)) = catalogURL s :: (detailURL s <$> names) ∧
    requests (trace (fetchAndDecodeSnapshotsStats rt s)) =
      catalogURL s :: (detailURL s <$> names) ∧
    (∀ name,
       detailURL s name =
         withPath (url s) (path.Join [Path (url s); "/_snapshot"; name; "/_all"])) ∧
    (∀ name, path.plain name →
       Path (detailURL s name) = Path (catalogURL s) +:+ "/" +:+ name +:+ "/_all").
Proof.
  intros Hcat. exists (range rt srr).*1. split_and!.
  - apply range_NoDup.
  - intros name. apply range_keys.
  - by rewrite length_fmap, range_length.
  - by apply requests_Collect_success.
  - destruct (fetch_success rt s srr Hcat) as [_ ->].
    rewrite requests_app, requests_detail_loop. unfold catalogFetch.
    by rewrite requests_getAndParseURL.
  - reflexivity.
  - intros name Hname. by apply Join_detail.
Qed.

Lemma detail_fetches_follow_the_catalog_witness :
  result (catalogFetch example.runtime example.healthy) =
    inr (example.catalog ["R1"; "R2"]) ∧
  ∃ names : list string,
    length names = 2%nat ∧
    requests (trace (Collect example.runtime example.healthy)) =
      catalogURL example.healthy :: (detailURL example.healthy <$> names).
Proof.
  split; [reflexivity|].
  destruct (detail_fetches_follow_the_catalog example.runtime example.healthy
              (example.catalog ["R1"; "R2"]) eq_refl)
    as (names & _ & _ & Hlength & Hrequests & _).
  exists names. split; [exact Hlength|exact Hrequests].
Defined.

(** A repository named [..]: under the base path [/es] its detail is asked
    at [/es/_all], not at [/es/_snapshot/../_all], so that not every name of
    the catalog is asked at the path put together from the base path, the
    name and [/_all]. *)
Lemma detail_path_is_cleaned :
  result (catalogFetch example.runtime example.dotdot) = inr (example.catalog [".."]) ∧
  requests (trace (Collect example.runtime example.dotdot)) =
    [ mkURL "http" "localhost" "9200" "/es/_snapshot";
      mkURL "http" "localhost" "9200" "/es/_all" ] ∧
  templatePath example.dotdot ".." = "/es/_snapshot/../_all" ∧
  ¬ (∀ name, is_Some (example.catalog [".."] !! name) →
       withPath (url example.dotdot) (templatePath example.dotdot name)
         ∈ requests (trace (Collect example.runtime example.dotdot))).
Proof.
  split_and!; try reflexivity.
  intros Hall. specialize (Hall ".." ltac:(by eexists)).
  vm_compute in Hall.
  apply elem_of_cons in Hall as [Hall|Hall]; [discriminate|].
  apply elem_of_cons in Hall as [Hall|Hall]; [discriminate|].
  by apply elem_of_nil in Hall.
Qed.

(** ** The samples of one repository among those of a cycle *)

Lemma samplesOf_same (name : string) (ms : list prometheus.Metric) :
  Forall (λ m, head (prometheus.labelValues m) = Some name) ms →
  samplesOf name ms = ms.
Proof.
  unfold samplesOf. induction 1 as [|m ms Hm _ IH]; [reflexivity|].
  by rewrite filter_cons_True, IH.
Qed.

Lemma samplesOf_other (name other : string) (ms : list prometheus.Metric) :
  Forall (λ m, head (prometheus.labelValues m) = Some other) ms →
  other ≠ name →
  samplesOf name ms = [].
Proof.
  unfold samplesOf. intros Hms Hne. induction Hms as [|m ms Hm _ IH]; [reflexivity|].
  rewrite filter_cons_False; [exact IH|]. rewrite Hm. by intros [= ?].
Qed.

Lemma samplesOf_app (name : string) (ms1 ms2 : list prometheus.Metric) :
  samplesOf name (ms1 ++ ms2) = samplesOf name ms1 ++ samplesOf name ms2.
Proof. apply filter_app. Qed.

Section per_repository.

Context {V : Type} (f : string * V → list prometheus.Metric).
Context (Hf : ∀ k v, Forall (λ m, head (prometheus.labelValues m) = Some k) (f (k, v))).

Lemma samplesOf_absent (l : list (string * V)) (name : string) :
  name ∉ l.*1 → samplesOf name (flat_map f l) = [].
Proof.
  induction l as [|[k v] l IH]; intros Hname; [reflexivity|].
  cbn [flat_map]. rewrite samplesOf_app.
  rewrite fmap_cons in Hname. apply not_elem_of_cons in Hname as [Hk Hl].
  rewrite IH by done. rewrite app_nil_r.
  apply (samplesOf_other name k); [apply Hf|done].
Qed.

Lemma samplesOf_present (l : list (string * V)) (name : string) (v : V) :
  NoDup l.*1 → (name, v) ∈ l → samplesOf name (flat_map f l) = f (name, v).
Proof.
  induction l as [|[k w] l IH]; intros Hnodup Hin.
  - by apply elem_of_nil in Hin.
  - rewrite fmap_cons in Hnodup. apply NoDup_cons in Hnodup as [Hk Hnodup].
    cbn [flat_map]. rewrite samplesOf_app.
    apply elem_of_cons in Hin as [[= <- <-]|Hin].
    + rewrite (samplesOf_absent l name Hk), app_nil_r.
      apply samplesOf_same, Hf.
    + rewrite IH by done.
      assert (k ≠ name) as Hne.
      { intros ->. apply Hk. apply list_elem_of_fmap. by exists (name, v). }
      by rewrite (samplesOf_other name k (f (k, w)) (Hf k w) Hne).
Qed.

End per_repository.

Section registry.

Context (rt : Runtime) (s : Snapshots).
Context (namespace : string) (c : Client) (u : URL).
Context (Hs : s = NewSnapshots namespace c u).

Lemma samples_carry_the_name (name : string) (stats : SnapshotStatsResponse) :
  Forall (λ m, head (prometheus.labelValues m) = Some name)
    (repositorySamples s name stats ++ snapshotSamples s name stats).
Proof.
  rewrite Hs. apply Forall_app. split.
  - repeat constructor.
  - unfold snapshotSamples. destruct (last _); repeat constructor.
Qed.

(** The library refuses a sample whose label values are not as many as the
    label names of its descriptor; the samples of the registry are accepted. *)
Lemma samples_fit_their_descriptors (name : string) (stats : SnapshotStatsResponse) :
  Forall (λ m, length (prometheus.labelValues m) =
               length (prometheus.variableLabels (prometheus.desc m)))
    (repositorySamples s name stats ++ snapshotSamples s name stats).
Proof.
  rewrite Hs. apply Forall_app. split.
  - repeat constructor.
  - unfold snapshotSamples. destruct (last _); repeat constructor.
Qed.

(** The samples of one repository in a cycle whose catalog fetch succeeds:
    those of its statistics when its detail fetch succeeded, none otherwise. *)
Lemma samplesOf_Collect (srr : SnapshotRepositoriesResponse) (name : string) :
  result (catalogFetch rt s) = inr srr →
  samplesOf name (samples (trace (Collect rt s))) =
    match fetched rt s srr !! name with
    | Some stats => repositorySamples s name stats ++ snapshotSamples s name stats
    | None => []
    end.
Proof.
  intros Hcat. rewrite (samples_Collect_success rt s srr Hcat).
  destruct (fetched rt s srr !! name) as [stats|] eqn:Hname.
  - apply (samplesOf_present
             (λ '(name, stats),
                repositorySamples s name stats ++ snapshotSamples s name stats)).
    + intros k v. apply samples_carry_the_name.
    + apply range_NoDup.
    + by apply range_lookup.
  - apply samplesOf_absent.
    + intros k v. apply samples_carry_the_name.
    + rewrite range_keys, Hname. by intros [? ?].
Qed.

End registry.

(** The log of a cycle whose catalog fetch succeeds holds the lines of the
    bodies that failed to close, and nothing else. *)
Lemma logged_Collect (rt : Runtime) (s : Snapshots) (srr : SnapshotRepositoriesResponse) :
  result (catalogFetch rt s) = inr srr →
  logged (trace (Collect rt s)) =
    flat_map (closeLines (client s)) (requests (trace (Collect rt s))).
Proof.
  intros Hcat. rewrite (requests_Collect_success rt s srr Hcat).
  rewrite (trace_Collect_success rt s srr Hcat).
  rewrite !logged_app, logged_metrics, app_nil_r. cbn [flat_map]. f_equal.
  - unfold catalogFetch. by rewrite logged_getAndParseURL.
  - induction (range rt srr).*1 as [|name names IH]; [reflexivity|].
    cbn [flat_map fmap list_fmap]. rewrite logged_app, IH. f_equal.
    unfold detailFetch. by rewrite logged_getAndParseURL.
Qed.

(** C4. For every repository whose detail fetch succeeded, [Collect] sends
    exactly one sample per repository-level descriptor, computed on all its
    statistics, and then, if and only if it has snapshots, exactly one sample
    per snapshot-level descriptor, computed on the last snapshot whatever its
    state. *)
Theorem samples_of_fetched_repositories
    (rt : Runtime) (namespace : string) (c : Client) (base : URL)
    (srr : SnapshotRepositoriesResponse) :
  let s := NewSnapshots namespace c base in
  result (catalogFetch rt s) = inr srr →
  (∀ name stats,
     fetched rt s srr !! name = Some stats ↔
     is_Some (srr !! name) ∧ result (detailFetch rt s name) = inr stats) ∧
  samples (trace (Collect rt s)) =
    flat_map (λ '(name, stats),
      repositorySamples s name stats ++ snapshotSamples s name stats)
      (range rt (fetched rt s srr)) ∧
  (∀ name stats,
     is_Some (srr !! name) → result (detailFetch rt s name) = inr stats →
     samplesOf name (samples (trace (Collect rt s))) =
       repositorySamples s name stats ++ snapshotSamples s name stats) ∧
  (∀ name stats,
     repositorySamples s name stats =
       (λ metric, prometheus.mkMetric (rmDesc metric) (rmType metric)
                    (rmValue metric stats) [name]) <$> repositoryMetrics s ∧
     length (repositorySamples s name stats) = 3%nat ∧
     (snapshots stats = [] → snapshotSamples s name stats = []) ∧
     (∀ before lastSnapshot,
        snapshots stats = before ++ [lastSnapshot] →
        snapshotSamples s name stats =
          (λ metric, prometheus.mkMetric (smDesc metric) (smType metric)
                       (smValue metric lastSnapshot)
                       [name; State lastSnapshot; Version lastSnapshot])
            <$> snapshotMetrics s ∧
        length (snapshotSamples s name stats) = 7%nat)).
Proof.
  intros s Hcat. subst s. split_and!.
  - intros name stats. apply fetched_lookup.
  - by apply samples_Collect_success.
  - intros name stats Hname Hstats.
    rewrite (samplesOf_Collect rt _ namespace c base eq_refl srr name Hcat).
    by rewrite (proj2 (fetched_lookup rt _ srr name stats)).
  - intros name stats. split_and!; try reflexivity.
    + unfold snapshotSamples. by intros ->.
    + intros before lastSnapshot Hlast. unfold snapshotSamples.
      rewrite Hlast, last_snoc. split; reflexivity.
Qed.

Lemma samples_of_fetched_repositories_witness :
  let s := example.healthy in
  let tr := trace (Collect example.runtime s) in
  result (catalogFetch example.runtime s) = inr (example.catalog ["R1"; "R2"]) ∧
  samplesOf "R1" (samples tr) = repositorySamples s "R1" (mkStats []) ∧
  samplesOf "R2" (samples tr) =
    repositorySamples s "R2" example.threeSnapshots ++
    recordSamples s "R2" (example.snap "FAILED" 300000) ∧
  repositoryValue s 2 example.threeSnapshots = Some (float64_of_int 200).
Proof.
  intros s tr.
  destruct (samples_of_fetched_repositories example.runtime "elasticsearch"
              (client s) example.base (example.catalog ["R1"; "R2"]) eq_refl)
    as (_ & _ & Hof & _).
  split_and!.
  - reflexivity.
  - rewrite <- (app_nil_r (repositorySamples _ _ _)).
    apply (Hof "R1" (mkStats [])); [by eexists|reflexivity].
  - apply (Hof "R2" example.threeSnapshots); [by eexists|reflexivity].
  - reflexivity.
Defined.

(** C1, as the code has it. In a cycle in which the detail fetch of
    repository R1 fails and that of R2 succeeds, [Collect] sends the samples
    of R2 and none for R1, and the cycle goes on; the failure itself is not
    logged: the log of the cycle holds only the lines of the response bodies
    that failed to close, and is empty when every body closes. *)
Theorem failed_repository_is_skipped_silently
    (rt : Runtime) (namespace : string) (c : Client) (base : URL)
    (srr : SnapshotRepositoriesResponse)
    (R1 R2 : string) (err : error) (stats : SnapshotStatsResponse) :
  let s := NewSnapshots namespace c base in
  result (catalogFetch rt s) = inr srr →
  is_Some (srr !! R1) →
  is_Some (srr !! R2) →
  result (detailFetch rt s R1) = inl err →
  result (detailFetch rt s R2) = inr stats →
  samplesOf R1 (samples (trace (Collect rt s))) = [] ∧
  samplesOf R2 (samples (trace (Collect rt s))) =
    repositorySamples s R2 stats ++ snapshotSamples s R2 stats ∧
  (3 ≤ length (samplesOf R2 (samples (trace (Collect rt s)))))%nat ∧
  detailURL s R2 ∈ requests (trace (Collect rt s)) ∧
  logged (trace (Collect rt s)) =
    flat_map (closeLines c) (requests (trace (Collect rt s))) ∧
  ((∀ u res, Get c u = inr res → CloseErr res = None) →
   logged (trace (Collect rt s)) = []).
Proof.
  intros s Hcat HR1 HR2 Hfail Hok.
  pose proof (samplesOf_Collect rt s namespace c base eq_refl srr R1 Hcat) as H1.
  pose proof (samplesOf_Collect rt s namespace c base eq_refl srr R2 Hcat) as H2.
  pose proof (logged_Collect rt s srr Hcat) as Hlog.
  change (client s) with c in Hlog.
  rewrite (proj2 (fetched_lookup rt s srr R2 stats)) in H2 by done.
  destruct (fetched rt s srr !! R1) as [stats1|] eqn:Hfetched.
  { apply fetched_lookup in Hfetched as [_ Hfetched]. congruence. }
  split_and!.
  - exact H1.
  - exact H2.
  - rewrite H2, length_app. cbn. lia.
  - rewrite (requests_Collect_success rt s srr Hcat). right.
    apply list_elem_of_fmap. exists R2. split; [done|]. by apply range_keys.
  - exact Hlog.
  - intros Hclose. rewrite Hlog. clear Hlog.
    induction (requests _) as [|u us IH]; [reflexivity|].
    cbn [flat_map]. rewrite IH, app_nil_r. unfold closeLines.
    destruct (Get c u) as [?|res] eqn:Hget; [reflexivity|].
    by rewrite (Hclose u res Hget).
Qed.

Lemma failed_repository_is_skipped_silently_witness :
  let s := example.oneBroken in
  result (detailFetch example.runtime s "R1") = inl "HTTP Request failed with code 500" ∧
  result (detailFetch example.runtime s "R2") = inr example.threeSnapshots ∧
  samplesOf "R1" (samples (trace (Collect example.runtime s))) = [] ∧
  length (samplesOf "R2" (samples (trace (Collect example.runtime s)))) = 10%nat.
Proof.
  intros s.
  destruct (failed_repository_is_skipped_silently example.runtime "elasticsearch"
              (client s) example.base (example.catalog ["R1"; "R2"]) "R1" "R2"
              "HTTP Request failed with code 500" example.threeSnapshots
              eq_refl (mk_is_Some _ _ eq_refl) (mk_is_Some _ _ eq_refl)
              eq_refl eq_refl)
    as (HR1 & HR2 & _).
  split_and!; [reflexivity|reflexivity|exact HR1|].
  etrans; [exact (f_equal length HR2)|reflexivity].
Defined.

(** Repository R1 answers 500 and R2 answers: the samples of R2 are sent,
    and yet nothing at all is logged, so that no logged line names R1. *)
Lemma failed_repository_leaves_no_log_line :
  let s := example.oneBroken in
  let tr := trace (Collect example.runtime s) in
  result (detailFetch example.runtime s "R1") = inl "HTTP Request failed with code 500" ∧
  result (detailFetch example.runtime s "R2") = inr example.threeSnapshots ∧
  samplesOf "R2" (samples tr) ≠ [] ∧
  logged tr = [] ∧
  ¬ (∃ line, line ∈ logged tr).
Proof.
  intros s tr. split_and!; try reflexivity.
  - discriminate.
  - intros [line Hline]. by apply elem_of_nil in Hline.
Qed.

(* ================================================================= *)
(** * Further properties of the fetcher *)

(** X1. [getAndParseURL] succeeds exactly when the client answers with a
    response of status 200 whose body can be read and decoded; the value it
    leaves in [data] is then the decoded body. *)
Theorem getAndParseURL_succeeds_iff {T} (s : Snapshots)
    (unmarshal : string → error + T) (u : URL) (v : T) :
  result (getAndParseURL s unmarshal u) = inr v ↔
  ∃ res bts,
    Get (client s) u = inr res ∧ StatusCode res = StatusOK ∧
    Body res = inr bts ∧ unmarshal bts = inr v.
Proof.
  split.
  - intros Hres. destruct (Get (client s) u) as [err|res] eqn:Hget.
    + destruct (getAndParseURL_no_response s unmarshal u err Hget) as [_ [msg Hmsg]].
      congruence.
    + destruct (getAndParseURL_response s unmarshal u res Hget) as [_ Hexit].
      rewrite Hres in Hexit. inversion Hexit as [| | |bts v' Hstatus Hbody Hdecode].
      by exists res, bts.
  - intros (res & bts & Hget & Hstatus & Hbody & Hdecode).
    unfold getAndParseURL. rewrite Hget.
    rewrite decide_False by (by intros Hne; apply Hne).
    rewrite Hbody. exact Hdecode.
Qed.

(** X2. A body that fails to close does not change what [getAndParseURL]
    returns: two responses with the same status and the same body give the
    same result, whatever [Close] answers, and the traces differ by the log
    line of the failed close only. *)
Theorem close_failure_does_not_change_the_result {T} (s1 s2 : Snapshots)
    (unmarshal : string → error + T) (u : URL) (res1 res2 : Response) :
  Get (client s1) u = inr res1 →
  Get (client s2) u = inr res2 →
  StatusCode res1 = StatusCode res2 →
  Body res1 = Body res2 →
  result (getAndParseURL s1 unmarshal u) = result (getAndParseURL s2 unmarshal u) ∧
  withoutLog (trace (getAndParseURL s1 unmarshal u)) =
  withoutLog (trace (getAndParseURL s2 unmarshal u)).
Proof.
  intros Hget1 Hget2 Hstatus Hbody.
  destruct (getAndParseURL_response s1 unmarshal u res1 Hget1) as [Htr1 _].
  destruct (getAndParseURL_response s2 unmarshal u res2 Hget2) as [Htr2 _].
  split.
  - unfold getAndParseURL. rewrite Hget1, Hget2, Hstatus, Hbody.
    destruct (decide _); [reflexivity|]. by destruct (Body res2).
  - rewrite Htr1, Htr2, Hstatus.
    by destruct (decide (StatusCode res2 ≠ StatusOK)), (CloseErr res1), (CloseErr res2).
Qed.

Lemma close_failure_does_not_change_the_result_witness :
  let u := detailURL example.oneBroken "R1" in
  Get (client example.oneBroken) u = inr (mkResponse 500 (inr "") None) ∧
  Get (client example2.closeFails) u = inr (mkResponse 500 (inr "") (Some "broken pipe")) ∧
  result (getAndParseURL example.oneBroken (unmarshalStats example.runtime) u) =
  result (getAndParseURL example2.closeFails (unmarshalStats example.runtime) u).
Proof.
  intros u. split_and!; [reflexivity|reflexivity|].
  apply (close_failure_does_not_change_the_result
           example.oneBroken example2.closeFails (unmarshalStats example.runtime) u
           (mkResponse 500 (inr "") None) (mkResponse 500 (inr "") (Some "broken pipe"))
           eq_refl eq_refl eq_refl eq_refl).
Defined.

(** X3. [getAndParseURL] reads the body of a response only when its status
    is 200, and then once: a response with another status is closed unread,
    without a response nothing is read or closed, and a call that succeeds
    has read the body. *)
Theorem body_is_read_only_on_status_200 {T} (s : Snapshots)
    (unmarshal : string → error + T) (u : URL) :
  let tr := trace (getAndParseURL s unmarshal u) in
  reads tr =
    match Get (client s) u with
    | inr res => if decide (StatusCode res = StatusOK) then [u] else []
    | inl _ => []
    end ∧
  closes tr = (if answered (client s) u then [u] else []) ∧
  (∀ v, result (getAndParseURL s unmarshal u) = inr v → reads tr = [u]).
Proof.
  intros tr. subst tr. unfold answered.
  destruct (Get (client s) u) as [err|res] eqn:Hget.
  - destruct (getAndParseURL_no_response s unmarshal u err Hget) as [-> [msg ->]].
    by split_and!.
  - destruct (getAndParseURL_response s unmarshal u res Hget) as [-> Hexit].
    split_and!.
    + destruct (decide (StatusCode res ≠ StatusOK)) as [Hne|Heq].
      * rewrite decide_False by done. by destruct (CloseErr res).
      * apply dec_stable in Heq. rewrite decide_True by done.
        by destruct (CloseErr res).
    + by destruct (decide _), (CloseErr res).
    + intros v Hv. rewrite Hv in Hexit.
      inversion Hexit as [| | |bts v' Hstatus Hbody Hdecode].
      rewrite decide_False by (by intros Hne; apply Hne).
      by destruct (CloseErr res).
Qed.

(* ================================================================= *)
(** * Further properties of a cycle *)

Lemma closes_getAndParseURL {T} (s : Snapshots)
    (unmarshal : string → error + T) (u : URL) :
  closes (trace (getAndParseURL s unmarshal u)) =
    filter (λ u, answered (client s) u = true) [u].
Proof.
  unfold answered. destruct (Get (client s) u) as [err|res] eqn:Hget.
  - destruct (getAndParseURL_no_response s unmarshal u err Hget) as [-> _].
    rewrite filter_cons_False by (rewrite Hget; discriminate). reflexivity.
  - destruct (getAndParseURL_response s unmarshal u res Hget) as [-> _].
    rewrite filter_cons_True by (by rewrite Hget).
    by destruct (decide _), (CloseErr res).
Qed.

Lemma closes_metrics (ms : list prometheus.Metric) : closes (EvMetric <$> ms) = [].
Proof. induction ms as [|m ms IH]; [reflexivity|exact IH]. Qed.

Lemma closes_detail_loop (rt : Runtime) (s : Snapshots) (names : list string) :
  closes (flat_map (λ name, trace (detailFetch rt s name)) names) =
    filter (λ u, answered (client s) u = true) (detailURL s <$> names).
Proof.
  induction names as [|name names IH]; [reflexivity|].
  cbn [flat_map]. rewrite closes_app, IH. unfold detailFetch.
  rewrite closes_getAndParseURL, fmap_cons.
  by rewrite <- filter_app.
Qed.

(** X4. In a whole cycle of [Collect], whether the catalog fetch fails or
    not, the bodies closed are those of the requests that were answered with
    a response, each once and in the order of the requests: no response is
    left open and nothing else is closed. *)
Theorem every_response_of_a_cycle_is_closed (rt : Runtime) (s : Snapshots) :
  closes (trace (Collect rt s)) =
    filter (λ u, answered (client s) u = true) (requests (trace (Collect rt s))).
Proof.
  destruct (result (catalogFetch rt s)) as [err|srr] eqn:Hcat.
  - rewrite (trace_Collect_failure rt s err Hcat).
    rewrite closes_app, requests_app, app_nil_r, app_nil_r. unfold catalogFetch.
    by rewrite closes_getAndParseURL, requests_getAndParseURL.
  - rewrite (requests_Collect_success rt s srr Hcat).
    rewrite (trace_Collect_success rt s srr Hcat).
    rewrite !closes_app, closes_metrics, app_nil_r, closes_detail_loop.
    unfold catalogFetch. rewrite closes_getAndParseURL.
    by rewrite <- filter_app.
Qed.

(** What [fetchAndDecodeSnapshotsStats] returns, from the catalog fetch. *)
Lemma result_fetchAndDecodeSnapshotsStats (rt : Runtime) (s : Snapshots) :
  result (fetchAndDecodeSnapshotsStats rt s) =
    match result (catalogFetch rt s) with
    | inl err => inl err
    | inr srr => inr (fetched rt s srr)
    end.
Proof.
  destruct (result (catalogFetch rt s)) as [err|srr] eqn:Hcat.
  - by destruct (fetch_failure rt s err Hcat).
  - by destruct (fetch_success rt s srr Hcat).
Qed.

Lemma fetched_same_decoders (rt1 rt2 : Runtime) (s : Snapshots)
    (srr : SnapshotRepositoriesResponse) :
  unmarshalStats rt1 = unmarshalStats rt2 →
  fetched rt1 s srr = fetched rt2 s srr.
Proof.
  intros Hstats. apply map_eq. intros name. apply option_eq. intros stats.
  rewrite !fetched_lookup. unfold detailFetch. by rewrite Hstats.
Qed.

(** X5. What [fetchAndDecodeSnapshotsStats] returns does not depend on the
    order in which the range over the catalog visits the repositories: two
    runtimes with the same decoders give the same map or the same error. *)
Theorem fetched_statistics_do_not_depend_on_the_order
    (rt1 rt2 : Runtime) (s : Snapshots) :
  unmarshalRepositories rt1 = unmarshalRepositories rt2 →
  unmarshalStats rt1 = unmarshalStats rt2 →
  result (fetchAndDecodeSnapshotsStats rt1 s) =
  result (fetchAndDecodeSnapshotsStats rt2 s).
Proof.
  intros Hrepos Hstats. rewrite !result_fetchAndDecodeSnapshotsStats.
  assert (Hcat : catalogFetch rt1 s = catalogFetch rt2 s).
  { unfold catalogFetch. by rewrite Hrepos. }
  rewrite Hcat. destruct (result (catalogFetch rt2 s)) as [err|srr]; [reflexivity|].
  f_equal. by apply fetched_same_decoders.
Qed.

Lemma fetched_statistics_do_not_depend_on_the_order_witness :
  range example.runtime (example.catalog ["R1"; "R2"]) ≠
    range example2.backward (example.catalog ["R1"; "R2"]) ∧
  result (fetchAndDecodeSnapshotsStats example.runtime example.healthy) =
  result (fetchAndDecodeSnapshotsStats example2.backward example.healthy).
Proof.
  split; [discriminate|].
  apply (fetched_statistics_do_not_depend_on_the_order
           example.runtime example2.backward example.healthy eq_refl eq_refl).
Defined.

Lemma flat_map_Permutation {A B} (f : A → list B) (l1 l2 : list A) :
  l1 ≡ₚ l2 → flat_map f l1 ≡ₚ flat_map f l2.
Proof.
  induction 1 as [|x l1 l2 _ IH|x y l|l1 l2 l3 _ IH1 _ IH2]; cbn [flat_map].
  - done.
  - by rewrite IH.
  - rewrite !app_assoc. f_equiv. apply Permutation_app_comm.
  - by rewrite IH1.
Qed.

(** X6. The samples of a cycle do not depend on the order of the ranges
    over the maps but for their own order: two runtimes with the same
    decoders send the same samples, each as many times. *)
Theorem samples_do_not_depend_on_the_order (rt1 rt2 : Runtime) (s : Snapshots) :
  unmarshalRepositories rt1 = unmarshalRepositories rt2 →
  unmarshalStats rt1 = unmarshalStats rt2 →
  samples (trace (Collect rt1 s)) ≡ₚ samples (trace (Collect rt2 s)).
Proof.
  intros Hrepos Hstats.
  assert (Hcat : catalogFetch rt1 s = catalogFetch rt2 s).
  { unfold catalogFetch. by rewrite Hrepos. }
  destruct (result (catalogFetch rt1 s)) as [err|srr] eqn:Hcat1.
  - assert (Hcat2 : result (catalogFetch rt2 s) = inl err) by by rewrite <- Hcat.
    rewrite (trace_Collect_failure rt1 s err Hcat1).
    rewrite (trace_Collect_failure rt2 s err Hcat2).
    rewrite !samples_app. unfold catalogFetch.
    by rewrite !samples_getAndParseURL.
  - assert (Hcat2 : result (catalogFetch rt2 s) = inr srr) by by rewrite <- Hcat.
    rewrite (samples_Collect_success rt1 s srr Hcat1).
    rewrite (samples_Collect_success rt2 s srr Hcat2).
    rewrite (fetched_same_decoders rt1 rt2 s srr Hstats).
    apply flat_map_Permutation.
    by rewrite (range_perm rt1), (range_perm rt2).
Qed.

Lemma samples_do_not_depend_on_the_order_witness :
  samples (trace (Collect example.runtime example.healthy)) ≠
    samples (trace (Collect example2.backward example.healthy)) ∧
  samples (trace (Collect example.runtime example.healthy)) ≡ₚ
    samples (trace (Collect example2.backward example.healthy)).
Proof.
  split; [discriminate|].
  apply (samples_do_not_depend_on_the_order
           example.runtime example2.backward example.healthy eq_refl eq_refl).
Defined.

Lemma length_cycle_samples (s : Snapshots) (l : list (string * SnapshotStatsResponse)) :
  length (flat_map (λ '(name, stats),
            repositorySamples s name stats ++ snapshotSamples s name stats) l) =
    (length (repositoryMetrics s) * length l +
     length (snapshotMetrics s) *
       length (filter (λ entry, snapshots entry.2 ≠ []) l))%nat.
Proof.
  induction l as [|[name stats] l IH]; [cbn; lia|].
  cbn [flat_map]. rewrite !length_app, IH.
  unfold repositorySamples, snapshotSamples, recordSamples.
  rewrite length_fmap.
  destruct (snapshots stats) as [|first rest] eqn:Hsnaps.
  - rewrite filter_cons_False by (cbn; by rewrite Hsnaps; intros ?).
    cbn [last length]. lia.
  - rewrite filter_cons_True by (cbn; by rewrite Hsnaps).
    rewrite last_cons. destruct (last rest); rewrite length_fmap; cbn [length]; lia.
Qed.

Lemma fetched_size (rt : Runtime) (s : Snapshots) (srr : SnapshotRepositoriesResponse) :
  (size (fetched rt s srr) ≤ size srr)%nat.
Proof.
  rewrite <- !size_dom. apply subseteq_size. intros name Hname.
  apply elem_of_dom in Hname as [stats Hstats]. apply elem_of_dom.
  by apply fetched_lookup in Hstats as [? _].
Qed.

(** X7. A cycle whose catalog fetch succeeds sends, for each fetched
    repository, as many samples as there are repository metrics, and as many
    again as there are snapshot metrics for each fetched repository that has
    a snapshot: at most one per metric and repository of the catalog. *)
Theorem number_of_samples_of_a_cycle
    (rt : Runtime) (s : Snapshots) (srr : SnapshotRepositoriesResponse) :
  result (catalogFetch rt s) = inr srr →
  length (samples (trace (Collect rt s))) =
    (length (repositoryMetrics s) * size (fetched rt s srr) +
     length (snapshotMetrics s) * length (withSnapshots (fetched rt s srr)))%nat ∧
  (length (samples (trace (Collect rt s))) ≤
     (length (repositoryMetrics s) + length (snapshotMetrics s)) * size srr)%nat.
Proof.
  intros Hcat. rewrite (samples_Collect_success rt s srr Hcat).
  rewrite length_cycle_samples, range_length. unfold withSnapshots.
  rewrite (range_perm rt _ (fetched rt s srr)) at 1 2.
  split; [reflexivity|].
  pose proof (fetched_size rt s srr) as Hsize.
  pose proof (length_filter (λ entry : string * SnapshotStatsResponse,
                snapshots entry.2 ≠ []) (map_to_list (fetched rt s srr))) as Hfilter.
  rewrite length_map_to_list in Hfilter. nia.
Qed.

Lemma number_of_samples_of_a_cycle_witness :
  result (catalogFetch example.runtime example.healthy) =
    inr (example.catalog ["R1"; "R2"]) ∧
  length (samples (trace (Collect example.runtime example.healthy))) = 13%nat.
Proof.
  split; [reflexivity|].
  destruct (number_of_samples_of_a_cycle example.runtime example.healthy
              (example.catalog ["R1"; "R2"]) eq_refl) as [Hlength _].
  etrans; [exact Hlength|reflexivity].
Defined.

(** X8. Every sample that [Collect] sends carries a descriptor that
    [Describe] advertises, whatever the metrics of the collector are and
    however the cycle goes. *)
Theorem samples_carry_advertised_descriptors (rt : Runtime) (s : Snapshots) :
  Forall (λ m, prometheus.desc m ∈ descriptors (trace (Describe s)))
    (samples (trace (Collect rt s))).
Proof.
  rewrite trace_Describe, descriptors_descs.
  destruct (result (catalogFetch rt s)) as [err|srr] eqn:Hcat.
  - rewrite (trace_Collect_failure rt s err Hcat), samples_app.
    unfold catalogFetch. rewrite samples_getAndParseURL. constructor.
  - rewrite (samples_Collect_success rt s srr Hcat).
    apply Forall_forall. intros m Hm. apply list_elem_of_In, in_flat_map in Hm.
    destruct Hm as ([name stats] & _ & Hm). apply list_elem_of_In in Hm.
    unfold advertised. apply elem_of_app in Hm as [Hm|Hm]; apply elem_of_app.
    + right. unfold repositorySamples in Hm.
      apply list_elem_of_fmap in Hm as (metric & -> & Hmetric).
      apply list_elem_of_fmap. by exists metric.
    + left. unfold snapshotSamples, recordSamples in Hm.
      destruct (last _); [|by apply elem_of_nil in Hm].
      apply list_elem_of_fmap in Hm as (metric & -> & Hmetric).
      apply list_elem_of_fmap. by exists metric.
Qed.

(** X9. Every sample that the collector made by [NewSnapshots] sends has as
    many label values as its descriptor has label names, which is what
    [MustNewConstMetric] requires not to panic. *)
Theorem samples_have_the_labels_of_their_descriptor
    (rt : Runtime) (namespace : string) (c : Client) (base : URL) :
  Forall fits (samples (trace (Collect rt (NewSnapshots namespace c base)))).
Proof.
  set (s := NewSnapshots namespace c base).
  destruct (result (catalogFetch rt s)) as [err|srr] eqn:Hcat.
  - rewrite (trace_Collect_failure rt s err Hcat), samples_app.
    unfold catalogFetch. rewrite samples_getAndParseURL. constructor.
  - rewrite (samples_Collect_success rt s srr Hcat).
    induction (range rt (fetched rt s srr)) as [|[name stats] l IH]; [constructor|].
    cbn [flat_map]. apply Forall_app. split; [|exact IH].
    apply (samples_fit_their_descriptors s namespace c base eq_refl).
Qed.

(* ================================================================= *)
(** * Further properties of the registry *)

(** X10. Whatever the namespace, the ten descriptors that [NewSnapshots]
    builds have ten different fully qualified names, so that none of them
    collides with another at registration. *)
Theorem descriptor_names_are_distinct (namespace : string) (c : Client) (base : URL) :
  NoDup (prometheus.fqName <$> advertised (NewSnapshots namespace c base)).
Proof.
  set (prefix := (if decide (namespace = "") then "" else namespace +:+ "_") +:+
                 "snapshot_stats_").
  assert (Hnames :
    prometheus.fqName <$> advertised (NewSnapshots namespace c base) =
    (λ name, prefix +:+ name) <$>
      [ "snapshot_number_of_indices"; "snapshot_start_time_timestamp";
        "snapshot_end_time_timestamp"; "snapshot_number_of_failures";
        "snapshot_total_shards"; "snapshot_failed_shards";
        "snapshot_successful_shards"; "number_of_snapshots";
        "oldest_snapshot_timestamp"; "latest_snapshot_timestamp_seconds" ]).
  { subst prefix. cbn. unfold prometheus.BuildFQName. cbn.
    by rewrite <- !append_assoc. }
  rewrite Hnames. apply NoDup_fmap_2.
  - apply String.app_inj.
  - apply (bool_decide_unpack _). by vm_compute.
Qed.

(** X11. What one more snapshot at the end of a repository that has some
    does to the three repository values: the count grows by one, the oldest
    timestamp stays, and the latest success-or-partial timestamp becomes the
    start of the new snapshot when its state is SUCCESS or PARTIAL and stays
    otherwise. *)
Theorem repository_values_after_one_more_snapshot
    (namespace : string) (c : Client) (base : URL)
    (first : SnapshotStatDataResponse) (rest : list SnapshotStatDataResponse)
    (new : SnapshotStatDataResponse) :
  let s := NewSnapshots namespace c base in
  let before := mkStats (first :: rest) in
  let after := mkStats ((first :: rest) ++ [new]) in
  repositoryValue s 0 after = Some (float64_of_int (len (snapshots before) + 1)) ∧
  repositoryValue s 1 after = repositoryValue s 1 before ∧
  repositoryValue s 2 after =
    (if decide (successOrPartial new)
     then Some (float64_of_int (StartTimeInMillis new ÷ 1000))
     else repositoryValue s 2 before).
Proof.
  intros s before after. split_and!.
  - cbn. unfold len. cbn [length]. rewrite length_app. cbn [length]. do 2 f_equal. lia.
  - reflexivity.
  - cbn -[latestScan app]. rewrite !latestScan_spec.
    change (first :: rest ++ [new]) with ((first :: rest) ++ [new]).
    unfold latestSuccessOrPartial. rewrite rev_app_distr. cbn [rev app find].
    destruct (decide (successOrPartial new)) as [Hnew|Hnew].
    + by rewrite bool_decide_eq_true_2.
    + by rewrite bool_decide_eq_false_2.
Qed.

(** X12. When the catalog is fetched and every detail fetch fails (or the
    catalog is empty), [fetchAndDecodeSnapshotsStats] returns an empty map
    and no error: the cycle makes all its requests, sends no sample and does
    not log the line of a failed fetch. *)
Theorem all_details_failing_gives_an_empty_cycle
    (rt : Runtime) (s : Snapshots) (srr : SnapshotRepositoriesResponse) :
  result (catalogFetch rt s) = inr srr →
  (∀ name, is_Some (srr !! name) → ∃ err, result (detailFetch rt s name) = inl err) →
  result (fetchAndDecodeSnapshotsStats rt s) = inr ∅ ∧
  samples (trace (Collect rt s)) = [] ∧
  length (requests (trace (Collect rt s))) = S (size srr) ∧
  logged (trace (Collect rt s)) =
    flat_map (closeLines (client s)) (requests (trace (Collect rt s))).
Proof.
  intros Hcat Hfail.
  assert (Hempty : fetched rt s srr = ∅).
  { apply map_eq. intros name. rewrite lookup_empty.
    apply option_eq. intros stats. rewrite fetched_lookup.
    split; [|discriminate]. intros [Hname Hstats].
    destruct (Hfail name Hname) as [err Herr]. congruence. }
  split_and!.
  - rewrite result_fetchAndDecodeSnapshotsStats, Hcat. by rewrite Hempty.
  - rewrite (samples_Collect_success rt s srr Hcat), Hempty.
    pose proof (range_length rt (∅ : gmap string SnapshotStatsResponse)) as Hlen.
    rewrite map_size_empty in Hlen. by destruct (range rt ∅).
  - rewrite (requests_Collect_success rt s srr Hcat).
    cbn [length]. by rewrite !length_fmap, range_length.
  - exact (logged_Collect rt s srr Hcat).
Qed.

Lemma all_details_failing_gives_an_empty_cycle_witness :
  result (catalogFetch example.runtime example3.detailsDown) =
    inr (example.catalog ["R1"; "R2"]) ∧
  result (fetchAndDecodeSnapshotsStats example.runtime example3.detailsDown) = inr ∅ ∧
  samples (trace (Collect example.runtime example3.detailsDown)) = [] ∧
  logged (trace (Collect example.runtime example3.detailsDown)) = [].
Proof.
  split; [reflexivity|].
  destruct (all_details_failing_gives_an_empty_cycle example.runtime
              example3.detailsDown (example.catalog ["R1"; "R2"]) eq_refl)
    as (Hresult & Hsamples & _).
  { intros name Hname. unfold example.catalog in Hname. cbn in Hname.
    apply lookup_insert_is_Some in Hname as [<-|[_ Hname]]; [by eexists|].
    apply lookup_insert_is_Some in Hname as [<-|[_ Hname]]; [by eexists|].
    rewrite lookup_empty in Hname. by destruct Hname. }
  split_and!; [exact Hresult|exact Hsamples|reflexivity].
Defined.

(* ================================================================= *)
(** * Further properties of the request paths *)

Lemma length_append (p q : string) :
  String.length (p +:+ q) = (String.length p + String.length q)%nat.
Proof.
  induction p as [|ch p IH]; [reflexivity|].
  change (String ch p +:+ q) with (String ch (p +:+ q)). cbn [String.length].
  by rewrite IH.
Qed.

Lemma append_cancel_r (p q r : string) : p +:+ r = q +:+ r → p = q.
Proof.
  revert q. induction p as [|ch p IH]; intros [|ch' q] Heq.
  - reflexivity.
  - apply (f_equal String.length) in Heq.
    rewrite !length_append in Heq. cbn [String.length] in Heq. lia.
  - apply (f_equal String.length) in Heq.
    rewrite !length_append in Heq. cbn [String.length] in Heq. lia.
  - change (String ch (p +:+ r) = String ch' (q +:+ r)) in Heq.
    injection Heq as -> Heq. f_equal. by apply IH.
Qed.

Lemma detailURL_plain_inj (s : Snapshots) (name1 name2 : string) :
  path.plain name1 → path.plain name2 →
  detailURL s name1 = detailURL s name2 → name1 = name2.
Proof.
  intros Hplain1 Hplain2 Heq. apply (f_equal Path) in Heq.
  cbn [detailURL withPath Path] in Heq.
  rewrite !Join_detail in Heq by done.
  apply String.app_inj, String.app_inj in Heq.
  by apply append_cancel_r in Heq.
Qed.

Lemma detailURL_plain_not_catalog (s : Snapshots) (name : string) :
  path.plain name → detailURL s name ≠ catalogURL s.
Proof.
  intros Hplain Heq. apply (f_equal Path) in Heq.
  cbn [detailURL catalogURL withPath Path] in Heq.
  rewrite Join_detail in Heq by done.
  apply (f_equal String.length) in Heq.
  rewrite !length_append in Heq. cbn [String.length] in Heq. lia.
Qed.

(** X13. When every name of the catalog is one plain path element, the
    requests of a cycle all go to different URLs: no two repositories are
    asked at the same place, and no repository is asked at the URL of the
    catalog. *)
Theorem plain_names_are_fetched_at_distinct_urls
    (rt : Runtime) (s : Snapshots) (srr : SnapshotRepositoriesResponse) :
  result (catalogFetch rt s) = inr srr →
  (∀ name, is_Some (srr !! name) → path.plain name) →
  NoDup (requests (trace (Collect rt s))) ∧
  (∀ name1 name2,
     is_Some (srr !! name1) → is_Some (srr !! name2) →
     detailURL s name1 = detailURL s name2 → name1 = name2).
Proof.
  intros Hcat Hplain. split.
  - rewrite (requests_Collect_success rt s srr Hcat). apply NoDup_cons. split.
    + intros Hin. apply list_elem_of_fmap in Hin as (name & Heq & Hname).
      apply range_keys in Hname.
      by apply (detailURL_plain_not_catalog s name (Hplain name Hname)).
    + apply NoDup_fmap_2_strong; [|apply range_NoDup].
      intros name1 name2 Hname1 Hname2. apply range_keys in Hname1, Hname2.
      apply detailURL_plain_inj; by apply Hplain.
  - intros name1 name2 Hname1 Hname2. apply detailURL_plain_inj; by apply Hplain.
Qed.

Lemma plain_names_are_fetched_at_distinct_urls_witness :
  result (catalogFetch example.runtime example.healthy) =
    inr (example.catalog ["R1"; "R2"]) ∧
  NoDup (requests (trace (Collect example.runtime example.healthy))).
Proof.
  split; [reflexivity|].
  apply (plain_names_are_fetched_at_distinct_urls example.runtime example.healthy
           (example.catalog ["R1"; "R2"]) eq_refl).
  intros name Hname. unfold example.catalog in Hname. cbn in Hname.
  apply lookup_insert_is_Some in Hname as [<-|[_ Hname]];
    [by apply plain_literal|].
  apply lookup_insert_is_Some in Hname as [<-|[_ Hname]];
    [by apply plain_literal|].
  rewrite lookup_empty in Hname. by destruct Hname.
Defined.

(* ================================================================= *)
(** * The Docker helpers *)

Section docker_facts.

Import docker.

Lemma lookup_Add (key value : string) (filter : Args) (k : string) :
  Add key value filter !! k =
    if decide (key = k) then Some ({[value]} ∪ valuesOf filter k) else filter !! k.
Proof.
  unfold Add, valuesOf. destruct (decide (key = k)) as [->|Hne].
  - destruct (filter !! k) as [values|] eqn:Hk; rewrite lookup_insert_eq; cbn.
    + reflexivity.
    + by rewrite (right_id_L ∅ (∪)).
  - by destruct (filter !! key); rewrite lookup_insert_ne.
Qed.

Lemma valuesOf_Add (key value : string) (filter : Args) (k : string) :
  valuesOf (Add key value filter) k =
    if decide (key = k) then {[value]} ∪ valuesOf filter k else valuesOf filter k.
Proof.
  unfold valuesOf at 1. rewrite lookup_Add. by destruct (decide _).
Qed.

Lemma Add_comm (k1 v1 k2 v2 : string) (filter : Args) :
  Add k1 v1 (Add k2 v2 filter) = Add k2 v2 (Add k1 v1 filter).
Proof.
  apply map_eq. intros k. rewrite !lookup_Add, !valuesOf_Add.
  destruct (decide (k1 = k)), (decide (k2 = k)); try reflexivity.
  f_equal. by rewrite !(assoc_L (∪)), (comm_L (∪) {[v1]}).
Qed.

Lemma Add_idemp (key value : string) (filter : Args) :
  Add key value (Add key value filter) = Add key value filter.
Proof.
  apply map_eq. intros k. rewrite !lookup_Add, !valuesOf_Add.
  destruct (decide (key = k)); [|reflexivity]. f_equal.
  by rewrite (assoc_L (∪)), (idemp_L (∪)).
Qed.

(** Induction on a list read two elements at a time. *)
Lemma pairs_ind (P : list string → Prop) :
  P [] → (∀ x, P [x]) →
  (∀ key value rest, P rest → P (key :: value :: rest)) →
  ∀ args, P args.
Proof.
  intros Hnil Hone Hpair args.
  assert (Hboth : P args ∧ ∀ x, P (x :: args)); [|by destruct Hboth].
  induction args as [|y args [IH1 IH2]]; [by split|].
  split; [apply IH2|]. intros x. by apply Hpair.
Qed.

Lemma addPairs_Add (args : list string) (key value : string) (filter : Args) :
  addPairs args (Add key value filter) = Add key value (addPairs args filter).
Proof.
  revert filter. induction args as [| |k v rest IH] using pairs_ind; intros filter.
  - reflexivity.
  - reflexivity.
  - cbn [addPairs]. by rewrite (Add_comm k v), IH.
Qed.

Lemma addPairs_app (args more : list string) (filter : Args) :
  Nat.Even (length args) →
  addPairs (args ++ more) filter = addPairs more (addPairs args filter).
Proof.
  revert filter. induction args as [| |k v rest IH] using pairs_ind;
    intros filter Heven.
  - reflexivity.
  - destruct Heven as [n Hn]. cbn in Hn. lia.
  - cbn [app addPairs]. apply IH. destruct Heven as [n Hn].
    exists (pred n). cbn [length] in Hn. lia.
Qed.

Lemma addPairs_comm (args more : list string) (filter : Args) :
  addPairs args (addPairs more filter) = addPairs more (addPairs args filter).
Proof.
  revert filter. induction args as [| |k v rest IH] using pairs_ind; intros filter.
  - reflexivity.
  - reflexivity.
  - cbn [addPairs]. by rewrite !addPairs_Add, IH.
Qed.

Lemma addPairs_twice (args : list string) (filter : Args) :
  addPairs args (addPairs args filter) = addPairs args filter.
Proof.
  revert filter. induction args as [| |k v rest IH] using pairs_ind; intros filter.
  - reflexivity.
  - reflexivity.
  - cbn [addPairs]. by rewrite !addPairs_Add, Add_idemp, IH.
Qed.

Lemma len_rem_even {A} (l : list A) : len l `rem` 2 = 0 ↔ Nat.Even (length l).
Proof.
  unfold len. split.
  - intros Hrem. exists (Z.to_nat (Z.of_nat (length l) ÷ 2)).
    pose proof (Z.quot_rem' (Z.of_nat (length l)) 2) as Hqr.
    pose proof (Z.quot_pos (Z.of_nat (length l)) 2 ltac:(lia) ltac:(lia)). lia.
  - intros [n ->]. rewrite Nat2Z.inj_mul.
    change (Z.of_nat 2) with 2. rewrite Z.mul_comm. by apply Z.rem_mul.
Qed.

End docker_facts.

Section docker_properties.

Import docker.

(** X14. [buildDockerFilter] returns an error exactly when it is given an
    odd number of arguments, and the filter it returns with the error is the
    empty one. *)
Theorem buildDockerFilter_wants_pairs (args : list string) :
  ((buildDockerFilter args).2 = None ↔ Nat.Even (length args)) ∧
  ((buildDockerFilter args).2 ≠ None →
   buildDockerFilter args =
     (mkListOptions ∅, Some "an even number of arguments is required")).
Proof.
  unfold buildDockerFilter. destruct (decide (len args `rem` 2 ≠ 0)) as [Hodd|Heven].
  - split; [|done]. split; [discriminate|].
    intros Heven. by apply len_rem_even in Heven.
  - apply dec_stable in Heven. split; [|done].
    split; [|done]. intros _. by apply len_rem_even.
Qed.

Lemma addPairs_values (args : list string) (filter : Args) (k v : string) :
  Nat.Even (length args) →
  v ∈ valuesOf (addPairs args filter) k ↔
  v ∈ valuesOf filter k ∨
  ∃ i, args !! (2 * i)%nat = Some k ∧ args !! (2 * i + 1)%nat = Some v.
Proof.
  revert filter. induction args as [| |k0 v0 rest IH] using pairs_ind;
    intros filter Heven.
  - cbn. split; [by left|]. intros [?|(i & Hi & _)]; [done|].
    by rewrite lookup_nil in Hi.
  - destruct Heven as [n Hn]. cbn in Hn. lia.
  - assert (Hrest : Nat.Even (length rest)).
    { destruct Heven as [n Hn]. exists (pred n). cbn [length] in Hn. lia. }
    cbn [addPairs]. rewrite (IH _ Hrest), valuesOf_Add. split.
    + intros [Hin|(i & Hk & Hv)].
      * destruct (decide (k0 = k)) as [->|Hne]; [|by left].
        apply elem_of_union in Hin as [Hin|Hin]; [|by left].
        apply elem_of_singleton in Hin as ->. right. by exists 0%nat.
      * right. exists (S i). split.
        -- by replace (2 * S i)%nat with (S (S (2 * i))) by lia.
        -- by replace (2 * S i + 1)%nat with (S (S (2 * i + 1))) by lia.
    + intros [Hin|(i & Hk & Hv)].
      * left. destruct (decide (k0 = k)); [|done]. apply elem_of_union. by right.
      * destruct i as [|i].
        -- cbn in Hk, Hv. injection Hk as ->. injection Hv as ->.
           left. rewrite decide_True by done. apply elem_of_union. left.
           by apply elem_of_singleton.
        -- right. exists i. split.
           ++ by replace (2 * S i)%nat with (S (S (2 * i))) in Hk by lia.
           ++ by replace (2 * S i + 1)%nat with (S (S (2 * i + 1))) in Hv by lia.
Qed.

Lemma addPairs_keys (args : list string) (filter : Args) (k : string) :
  Nat.Even (length args) →
  is_Some (addPairs args filter !! k) ↔
  is_Some (filter !! k) ∨ ∃ i, args !! (2 * i)%nat = Some k.
Proof.
  revert filter. induction args as [| |k0 v0 rest IH] using pairs_ind;
    intros filter Heven.
  - cbn. split; [by left|]. intros [?|(i & Hi)]; [done|].
    by rewrite lookup_nil in Hi.
  - destruct Heven as [n Hn]. cbn in Hn. lia.
  - assert (Hrest : Nat.Even (length rest)).
    { destruct Heven as [n Hn]. exists (pred n). cbn [length] in Hn. lia. }
    cbn [addPairs]. rewrite (IH _ Hrest), lookup_Add. split.
    + intros [Hin|(i & Hk)].
      * destruct (decide (k0 = k)) as [->|Hne]; [|by left].
        right. by exists 0%nat.
      * right. exists (S i).
        by replace (2 * S i)%nat with (S (S (2 * i))) by lia.
    + intros [Hin|(i & Hk)].
      * left. by destruct (decide (k0 = k)).
      * destruct i as [|i].
        -- cbn in Hk. injection Hk as ->. left. by rewrite decide_True.
        -- right. exists i.
           by replace (2 * S i)%nat with (S (S (2 * i))) in Hk by lia.
Qed.

(** X15. The filter that [buildDockerFilter] makes from an even number of
    arguments holds exactly the pairs of the arguments: a key is in it when
    it stands at an even position, and a value is among the values of a key
    when it follows that key at such a position. *)
Theorem buildDockerFilter_holds_the_pairs (args : list string) (k v : string) :
  Nat.Even (length args) →
  let filter := Filters (buildDockerFilter args).1 in
  (is_Some (filter !! k) ↔ ∃ i, args !! (2 * i)%nat = Some k) ∧
  (v ∈ valuesOf filter k ↔
   ∃ i, args !! (2 * i)%nat = Some k ∧ args !! (2 * i + 1)%nat = Some v).
Proof.
  intros Heven filter. subst filter. unfold buildDockerFilter.
  rewrite decide_False by (intros Hodd; by apply Hodd, len_rem_even).
  cbn [fst Filters]. split.
  - rewrite (addPairs_keys args NewArgs k Heven). unfold NewArgs.
    rewrite lookup_empty. split; [|by right].
    intros [Hnone|Hsome]; [by destruct Hnone|done].
  - rewrite (addPairs_values args NewArgs k v Heven). unfold NewArgs, valuesOf.
    rewrite lookup_empty. cbn. split; [|by right].
    intros [Hin|Hsome]; [by apply elem_of_empty in Hin|done].
Qed.

Lemma buildDockerFilter_holds_the_pairs_witness :
  let args := ["dangling"; "true"; "label"; "a"; "label"; "b"] in
  Nat.Even (length args) ∧
  ("b" ∈ valuesOf (Filters (buildDockerFilter args).1) "label" ↔
   ∃ i, args !! (2 * i)%nat = Some "label" ∧ args !! (2 * i + 1)%nat = Some "b").
Proof.
  intros args. assert (Heven : Nat.Even (length args)) by (by exists 3%nat).
  split; [exact Heven|].
  apply (buildDockerFilter_holds_the_pairs args "label" "b" Heven).
Defined.

(** X16. The filter that [buildDockerFilter] makes does not depend on the
    order of the pairs nor on their repetition: two even runs of arguments
    give the same filter in either order, and a run given twice gives the
    filter of the run. *)
Theorem buildDockerFilter_is_a_set_of_pairs (args more : list string) :
  Nat.Even (length args) → Nat.Even (length more) →
  buildDockerFilter (args ++ more) = buildDockerFilter (more ++ args) ∧
  buildDockerFilter (args ++ args) = buildDockerFilter args.
Proof.
  intros Hargs Hmore.
  assert (Heven : ∀ l1 l2 : list string,
            Nat.Even (length l1) → Nat.Even (length l2) →
            ¬ len (l1 ++ l2) `rem` 2 ≠ 0).
  { intros l1 l2 [n1 Hn1] [n2 Hn2] Hodd. apply Hodd, len_rem_even.
    exists (n1 + n2)%nat. rewrite length_app. lia. }
  unfold buildDockerFilter.
  rewrite !decide_False by (by apply Heven || (intros Hodd; by apply Hodd, len_rem_even)).
  split; do 2 f_equal.
  - rewrite !addPairs_app by done. apply addPairs_comm.
  - rewrite addPairs_app by done. apply addPairs_twice.
Qed.

Lemma buildDockerFilter_is_a_set_of_pairs_witness :
  buildDockerFilter (["label"; "a"] ++ ["dangling"; "true"]) =
  buildDockerFilter (["dangling"; "true"] ++ ["label"; "a"]).
Proof.
  apply (buildDockerFilter_is_a_set_of_pairs ["label"; "a"] ["dangling"; "true"]).
  - by exists 1%nat.
  - by exists 1%nat.
Defined.

Lemma append_inj_same_length (p q r1 r2 : string) :
  String.length r1 = String.length r2 → p +:+ r1 = q +:+ r2 → p = q ∧ r1 = r2.
Proof.
  intros Hlen. revert q. induction p as [|ch p IH]; intros [|ch' q] Heq.
  - done.
  - apply (f_equal String.length) in Heq.
    rewrite !length_append in Heq. cbn [String.length] in Heq. lia.
  - apply (f_equal String.length) in Heq.
    rewrite !length_append in Heq. cbn [String.length] in Heq. lia.
  - change (String ch (p +:+ r1) = String ch' (q +:+ r2)) in Heq.
    injection Heq as -> Heq. destruct (IH q Heq) as [-> ->]. done.
Qed.

(** X17. [GetInspectCacheKey] gives different keys to different container
    identifiers and to the two values of [withSize]: no two inspections share
    a cache key. *)
Theorem GetInspectCacheKey_is_injective (ID1 ID2 : string) (withSize1 withSize2 : bool) :
  GetInspectCacheKey ID1 withSize1 = GetInspectCacheKey ID2 withSize2 →
  ID1 = ID2 ∧ withSize1 = withSize2.
Proof.
  unfold GetInspectCacheKey. intros Heq. apply String.app_inj in Heq.
  destruct withSize1, withSize2.
  - apply append_inj_same_length in Heq as [-> _]; done.
  - change (ID1 +:+ ".withsize" +:+ ".true" = ID2 +:+ ".withsize." +:+ "false") in Heq.
    rewrite !append_assoc in Heq.
    apply append_inj_same_length in Heq as [_ Heq]; [discriminate|done].
  - change (ID1 +:+ ".withsize." +:+ "false" = ID2 +:+ ".withsize" +:+ ".true") in Heq.
    rewrite !append_assoc in Heq.
    apply append_inj_same_length in Heq as [_ Heq]; [discriminate|done].
  - apply append_inj_same_length in Heq as [-> _]; done.
Qed.

Lemma GetInspectCacheKey_is_injective_witness :
  GetInspectCacheKey "4f2c" true = "dockerutil.containers.4f2c.withsize.true" ∧
  "4f2c" = "4f2c" ∧ true = true.
Proof.
  split; [reflexivity|].
  apply (GetInspectCacheKey_is_injective "4f2c" "4f2c" true true eq_refl).
Defined.

End docker_properties.

(** X18. [Collect] fetches first and sends afterwards: its trace is the
    trace of the fetches, which holds every request and no sample, followed
    by the samples and nothing else, so that no request is made once the
    first sample is sent. *)
Theorem fetches_come_before_samples (rt : Runtime) (s : Snapshots) :
  ∃ fetching : list Event,
    trace (Collect rt s) = fetching ++ (EvMetric <$> samples (trace (Collect rt s))) ∧
    samples fetching = [] ∧
    requests fetching = requests (trace (Collect rt s)) ∧
    closes fetching = closes (trace (Collect rt s)).
Proof.
  destruct (result (catalogFetch rt s)) as [err|srr] eqn:Hcat.
  - exists (trace (Collect rt s)).
    assert (Hnone : samples (trace (Collect rt s)) = []).
    { rewrite (trace_Collect_failure rt s err Hcat), samples_app.
      unfold catalogFetch. by rewrite samples_getAndParseURL. }
    rewrite Hnone. split_and!; try done. by rewrite app_nil_r.
  - exists (trace (catalogFetch rt s) ++
            flat_map (λ name, trace (detailFetch rt s name)) (range rt srr).*1).
    rewrite (samples_Collect_success rt s srr Hcat).
    rewrite (trace_Collect_success rt s srr Hcat). split_and!.
    + reflexivity.
    + rewrite samples_app, samples_detail_loop. unfold catalogFetch.
      by rewrite samples_getAndParseURL.
    + by rewrite (requests_app (_ ++ _)), requests_metrics, app_nil_r.
    + by rewrite (closes_app (_ ++ _)), closes_metrics, app_nil_r.
Qed.
